(** * Signaling coordination of the realtime-app repository

    A shallow embedding of [src/server/server.js] (the Socket.IO relay
    coordinator: room registry, join / signal / location / disconnect
    handlers) and of the signaling part of [src/client/main.js] (the
    per-peer connection handling of the session client).

    JavaScript [Set] and [Map] objects keep insertion order; they are
    modelled by duplicate-free lists where the source iterates them
    ([room.users], [room.locations], [currentRoomUsers]) and by stdpp
    [gmap]s where the source only looks keys up ([rooms], the Socket.IO
    adapter, the per-connection [socket.roomId] property,
    [peerConnections]). *)

From stdpp Require Import gmap strings list fin_maps.

Set Default Proof Using "Type".

(** Propositional goals with equalities between ids. *)
Ltac ids_solver :=
  intuition (subst; simplify_eq; try done; try congruence; eauto).

(** ** Insertion-ordered JavaScript containers *)

Module JS.
Section ordered.
Context {K V : Type} `{!EqDecision K}.

(** [Set.prototype.add]: a value already present keeps its position. *)
Definition Set_add (x : K) (l : list K) : list K :=
  if decide (x ∈ l) then l else l ++ [x].

(** [Set.prototype.delete]. *)
Definition Set_delete (x : K) (l : list K) : list K :=
  filter (λ y, y ≠ x) l.

(** [Map.prototype.set]: an existing key keeps its position and gets the
    new value, a new key is appended. *)
Fixpoint Map_set (k : K) (v : V) (m : list (K * V)) : list (K * V) :=
  match m with
  | [] => [(k, v)]
  | (k', v') :: m' =>
      if decide (k' = k) then (k, v) :: m' else (k', v') :: Map_set k v m'
  end.

(** [Map.prototype.delete]. *)
Definition Map_delete (k : K) (m : list (K * V)) : list (K * V) :=
  filter (λ e, e.1 ≠ k) m.

(** [Map.prototype.get]. *)
Fixpoint Map_get (k : K) (m : list (K * V)) : option V :=
  match m with
  | [] => None
  | (k', v') :: m' => if decide (k' = k) then Some v' else Map_get k m'
  end.

Lemma elem_of_Set_add x y l : y ∈ Set_add x l ↔ y = x ∨ y ∈ l.
Proof.
  unfold Set_add. case_decide as Hin.
  - split; [auto | intros [-> | ?]; done].
  - rewrite elem_of_app, list_elem_of_singleton. tauto.
Qed.

Lemma elem_of_Set_delete x y l : y ∈ Set_delete x l ↔ y ≠ x ∧ y ∈ l.
Proof. unfold Set_delete. apply (list_elem_of_filter (λ z, z ≠ x)). Qed.

Lemma Set_add_not_nil x l : Set_add x l ≠ [].
Proof.
  intros Hnil. assert (Hx : x ∈ Set_add x l) by (apply elem_of_Set_add; auto).
  rewrite Hnil in Hx. by apply not_elem_of_nil in Hx.
Qed.

Lemma NoDup_Set_add x l : NoDup l → NoDup (Set_add x l).
Proof.
  intros Hl. unfold Set_add. case_decide as Hin; [done |].
  apply NoDup_app. split_and!; [done | | apply NoDup_singleton].
  intros y Hy ->%list_elem_of_singleton. done.
Qed.

Lemma elem_of_Map_set_keys k v k' m :
  k' ∈ (m.*1) → k' ∈ (Map_set k v m).*1.
Proof.
  induction m as [| [k0 v0] m IH]; simpl.
  - intros []%not_elem_of_nil.
  - intros Hin. case_decide as Heq; simpl.
    + subst k0. exact Hin.
    + apply elem_of_cons in Hin as [-> | Hin]; [left | right; auto].
Qed.

Lemma elem_of_Map_set_keys_inv k v k' m :
  k' ∈ (Map_set k v m).*1 → k' = k ∨ k' ∈ m.*1.
Proof.
  induction m as [| [k0 v0] m IH]; simpl.
  - intros ->%list_elem_of_singleton. by left.
  - case_decide as Heq; simpl.
    + subst k0. intros Hin. by right.
    + intros [-> | Hin]%elem_of_cons; [right; left |].
      destruct (IH Hin) as [-> | ?]; [by left | right; by right].
Qed.

Lemma Map_get_Map_set_eq k v m : Map_get k (Map_set k v m) = Some v.
Proof.
  induction m as [| [k0 v0] m IH]; simpl.
  - by rewrite decide_True.
  - case_decide as Heq; simpl.
    + by rewrite decide_True.
    + by rewrite decide_False.
Qed.

Lemma Map_get_Map_set_ne k k' v m :
  k' ≠ k → Map_get k' (Map_set k v m) = Map_get k' m.
Proof.
  intros Hne. induction m as [| [k0 v0] m IH]; simpl.
  - by rewrite decide_False.
  - case_decide as Heq; simpl.
    + subst k0. by rewrite !decide_False.
    + case_decide; [done | exact IH].
Qed.

Lemma elem_of_Map_delete_keys k k' m :
  k' ∈ (Map_delete k m).*1 ↔ k' ≠ k ∧ k' ∈ m.*1.
Proof.
  unfold Map_delete. rewrite !list_elem_of_fmap. split.
  - intros ([k0 v0] & -> & [Hne Hin]%list_elem_of_filter). simpl in *.
    split; [done |]. exists (k0, v0). done.
  - intros (Hne & [k0 v0] & -> & Hin). exists (k0, v0). split; [done |].
    apply list_elem_of_filter. done.
Qed.

(** *** More on the containers: lookups, duplicates *)

Lemma Map_get_None k m : Map_get k m = None ↔ k ∉ m.*1.
Proof.
  induction m as [| [k0 v0] m IH]; simpl.
  - split; [intros _; apply not_elem_of_nil | done].
  - rewrite not_elem_of_cons. case_decide as Heq.
    + subst k0. split; [done | intros [? _]; done].
    + rewrite IH. split; [intros ?; split; [congruence | done] | intros [_ ?]; done].
Qed.



Lemma Map_get_Map_delete_eq k m : Map_get k (Map_delete k m) = None.
Proof. apply Map_get_None. rewrite elem_of_Map_delete_keys. tauto. Qed.

Lemma Map_get_Map_delete_ne k k' m :
  k' ≠ k → Map_get k' (Map_delete k m) = Map_get k' m.
Proof.
  intros Hne. unfold Map_delete. induction m as [| [k0 v0] m IH]; [done |].
  rewrite filter_cons. simpl. case_decide as Hk0; simpl.
  - case_decide; [done | exact IH].
  - subst k0. by rewrite decide_False.
Qed.




Lemma Set_delete_idemp x l : Set_delete x (Set_delete x l) = Set_delete x l.
Proof.
  unfold Set_delete. induction l as [| y l IH]; [done |].
  rewrite filter_cons. case_decide as Hy; [| exact IH].
  rewrite filter_cons. rewrite decide_True by done. by rewrite IH.
Qed.

Lemma elem_of_foldl_Set_add x acc l :
  x ∈ foldl (λ a u, Set_add u a) acc l ↔ x ∈ acc ∨ x ∈ l.
Proof.
  revert acc. induction l as [| y l IH]; intros acc; simpl.
  - rewrite elem_of_nil. tauto.
  - rewrite IH, elem_of_Set_add, elem_of_cons. tauto.
Qed.

Lemma NoDup_foldl_Set_add acc l :
  NoDup acc → NoDup (foldl (λ a u, Set_add u a) acc l).
Proof.
  revert acc. induction l as [| y l IH]; intros acc Hacc; simpl; [done |].
  by apply IH, NoDup_Set_add.
Qed.

End ordered.

(** JavaScript truthiness of a string-or-undefined value: [undefined] and
    the empty string are falsy. *)
Definition truthy (v : option string) : bool :=
  match v with
  | None => false
  | Some s => bool_decide (s ≠ "")
  end.

End JS.

(** ** The relay coordinator ([src/server/server.js]) *)

Module Server.
Section coordinator.

(** The coordinator never inspects coordinates or signaling payloads: both
    are type parameters. Socket ids and room ids are strings; Socket.IO
    uses one name space for both (every socket sits in a room named by its
    own id). *)
Context {Coord Payload : Type}.

Abbreviation SocketId := string (only parsing).
Abbreviation RoomId := string (only parsing).

(** [{lat, lng}] as stored in [room.locations]. *)
Record LatLng := mkLatLng { lat : Coord; lng : Coord }.

(** One entry of the [rooms] map:
    [{ users: Set<socketId>, locations: Map<socketId, {lat, lng}> }]. *)
Record Room := mkRoom {
  users : list SocketId;
  locations : list (SocketId * LatLng)
}.

(** Coordinator state. [rooms] is the module-level registry
    [const rooms = new Map()]. [adapter] is Socket.IO's own room
    membership (room name to socket ids), which [socket.join],
    [socket.to(..)] and [io.to(..)] use. [sockets] holds the [roomId]
    property of every live connection: [None] is [undefined]. *)
Record State := mkState {
  rooms : gmap RoomId Room;
  adapter : gmap RoomId (list SocketId);
  sockets : gmap SocketId (option RoomId)
}.

(** Events the server emits to clients. *)
Inductive Msg :=
| MRoomState (us : list SocketId) (locs : list (SocketId * Coord * Coord))
| MUserJoined (userId : SocketId)
| MUserLeft (userId : SocketId)
| MWebrtcSignal (roomId : RoomId) (from : SocketId) (signal : Payload)
| MLocationUpdate (roomId : RoomId) (userId : SocketId) (la ln : Coord).

(** A delivery: the receiving socket and the event. *)
Abbreviation Delivery := (SocketId * Msg)%type (only parsing).

(** Payload of an incoming [webrtc-signal]: [{roomId, from, to, signal}];
    [from] and [to] may be missing. *)
Record SignalData := mkSignalData {
  sd_roomId : RoomId;
  sd_from : option SocketId;
  sd_to : option SocketId;
  sd_signal : Payload
}.

(** Payload of an incoming [location-update]: [{roomId, lat, lng}]. *)
Record LocationData := mkLocationData {
  ld_roomId : RoomId;
  ld_lat : Coord;
  ld_lng : Coord
}.

(** [socket.roomId] of a connection. *)
Definition socket_roomId (s : State) (sid : SocketId) : option RoomId :=
  default None (sockets s !! sid).

(** Sockets currently in the Socket.IO room [r]. *)
Definition adapter_members (s : State) (r : RoomId) : list SocketId :=
  default [] (adapter s !! r).

(** The participants of room [r] as the registry has them. *)
Definition members (rs : gmap RoomId Room) (r : RoomId) : list SocketId :=
  match rs !! r with
  | Some room => users room
  | None => []
  end.

(** The participants of room [r] with a stored location. *)
Definition located (rs : gmap RoomId Room) (r : RoomId) : list SocketId :=
  match rs !! r with
  | Some room => (locations room).*1
  | None => []
  end.

(** [socket.join(roomId)]. *)
Definition adapter_join (sid : SocketId) (r : RoomId)
    (a : gmap RoomId (list SocketId)) : gmap RoomId (list SocketId) :=
  <[r := JS.Set_add sid (default [] (a !! r))]> a.

(** What Socket.IO does when a connection closes, before the
    [disconnect] handler runs: the socket leaves every room. *)
Definition adapter_leave_all (sid : SocketId)
    (a : gmap RoomId (list SocketId)) : gmap RoomId (list SocketId) :=
  JS.Set_delete sid <$> a.

(** [io.to(r).emit(m)]: every socket in room [r]. *)
Definition io_to (s : State) (r : RoomId) (m : Msg) : list Delivery :=
  (λ u, (u, m)) <$> adapter_members s r.

(** [socket.to(r).emit(m)]: every socket in room [r] except the sender. *)
Definition socket_to (s : State) (sid : SocketId) (r : RoomId) (m : Msg)
    : list Delivery :=
  (λ u, (u, m)) <$> filter (λ u, u ≠ sid) (adapter_members s r).

(** [function leaveRoom(socketId, roomId)]. *)
Definition leaveRoom (socketId : SocketId) (roomId : RoomId)
    (rs : gmap RoomId Room) : gmap RoomId Room :=
  match rs !! roomId with
  | Some room =>
      let room' := {| users := JS.Set_delete socketId (users room);
                      locations := JS.Map_delete socketId (locations room) |} in
      if decide (length (users room') = 0)
      then delete roomId rs
      else <[roomId := room']> rs
  | None => rs
  end.

(** The [room-state] snapshot built at the end of the join handler. *)
Definition room_state (sid : SocketId) (room : Room) : Msg :=
  MRoomState
    (filter (λ id, id ≠ sid) (users room))
    ((λ e, (e.1, lat e.2, lng e.2)) <$> locations room).

(** The first statement of the join handler, "leave previous room if
    any": [if (socket.roomId) { leaveRoom(socket.id, socket.roomId); }]. *)
Definition leave_previous (s : State) (sid : SocketId) : gmap RoomId Room :=
  if JS.truthy (socket_roomId s sid)
  then leaveRoom sid (default "" (socket_roomId s sid)) (rooms s)
  else rooms s.

(** [socket.on('join-room', (roomId) => ...)]. *)
Definition join_room (s : State) (sid : SocketId) (roomId : RoomId)
    : State * list Delivery :=
  let rs1 := leave_previous s sid in
  let ad1 := adapter_join sid roomId (adapter s) in
  let so1 := <[sid := Some roomId]> (sockets s) in
  let rs2 :=
    match rs1 !! roomId with
    | Some _ => rs1
    | None => <[roomId := {| users := []; locations := [] |}]> rs1
    end in
  let room := default {| users := []; locations := [] |} (rs2 !! roomId) in
  let room' := {| users := JS.Set_add sid (users room);
                  locations := locations room |} in
  let s' := {| rooms := <[roomId := room']> rs2;
               adapter := ad1; sockets := so1 |} in
  (s', socket_to s' sid roomId (MUserJoined sid) ++ [(sid, room_state sid room')]).

(** [socket.on('webrtc-signal', (data) => ...)]. The [from] field of
    [data] is destructured and never read. *)
Definition webrtc_signal (s : State) (sid : SocketId) (data : SignalData)
    : State * list Delivery :=
  if decide (socket_roomId s sid = Some (sd_roomId data)) then
    let m := MWebrtcSignal (sd_roomId data) sid (sd_signal data) in
    if JS.truthy (sd_to data)
    then (s, io_to s (default "" (sd_to data)) m)
    else (s, socket_to s sid (sd_roomId data) m)
  else (s, []).

(** [socket.on('location-update', (data) => ...)]. *)
Definition location_update (s : State) (sid : SocketId) (data : LocationData)
    : State * list Delivery :=
  if decide (socket_roomId s sid = Some (ld_roomId data)) then
    match rooms s !! ld_roomId data with
    | None => (s, [])
    | Some room =>
        let room' :=
          {| users := users room;
             locations := JS.Map_set sid (mkLatLng (ld_lat data) (ld_lng data))
                            (locations room) |} in
        let s' := {| rooms := <[ld_roomId data := room']> (rooms s);
                     adapter := adapter s; sockets := sockets s |} in
        (s', socket_to s' sid (ld_roomId data)
               (MLocationUpdate (ld_roomId data) sid (ld_lat data) (ld_lng data)))
    end
  else (s, []).

(** [socket.on('disconnect', () => ...)], run after Socket.IO has taken
    the socket out of every room; the connection object is gone
    afterwards. *)
Definition disconnect (s : State) (sid : SocketId) : State * list Delivery :=
  let ad1 := adapter_leave_all sid (adapter s) in
  if JS.truthy (socket_roomId s sid) then
    let r := default "" (socket_roomId s sid) in
    let s' := {| rooms := leaveRoom sid r (rooms s);
                 adapter := ad1; sockets := delete sid (sockets s) |} in
    (s', io_to s' r (MUserLeft sid))
  else
    ({| rooms := rooms s; adapter := ad1; sockets := delete sid (sockets s) |}, []).

(** [io.on('connection', (socket) => ...)]: a new socket has no [roomId]
    and sits in the room named by its own id. *)
Definition connection (s : State) (sid : SocketId) : State * list Delivery :=
  ({| rooms := rooms s;
      adapter := adapter_join sid sid (adapter s);
      sockets := <[sid := None]> (sockets s) |}, []).

(** Inbound events, each tagged with the connection it arrives on. *)
Inductive Event :=
| EConnection (sid : SocketId)
| EJoinRoom (sid : SocketId) (roomId : RoomId)
| EWebrtcSignal (sid : SocketId) (data : SignalData)
| ELocationUpdate (sid : SocketId) (data : LocationData)
| EDisconnect (sid : SocketId).

(** The server before any connection. *)
Definition init : State := {| rooms := ∅; adapter := ∅; sockets := ∅ |}.

(** One event processed to completion (Node runs each handler without
    interleaving: none of them awaits). *)
Definition step (s : State) (ev : Event) : State * list Delivery :=
  match ev with
  | EConnection sid => connection s sid
  | EJoinRoom sid roomId => join_room s sid roomId
  | EWebrtcSignal sid data => webrtc_signal s sid data
  | ELocationUpdate sid data => location_update s sid data
  | EDisconnect sid => disconnect s sid
  end.

(** Processing a list of events in order. *)
Fixpoint run (s : State) (evs : list Event) : State :=
  match evs with
  | [] => s
  | ev :: evs' => run (step s ev).1 evs'
  end.

(** Events the transport can really produce in state [s]: ids of new
    connections are fresh, all other events arrive on a live connection,
    and a room name is a non-empty string (the data model of the
    protocol). *)
Definition event_ok (s : State) (ev : Event) : Prop :=
  match ev with
  | EConnection sid => sockets s !! sid = None
  | EJoinRoom sid roomId => is_Some (sockets s !! sid) ∧ roomId ≠ ""
  | EWebrtcSignal sid _ | ELocationUpdate sid _ | EDisconnect sid =>
      is_Some (sockets s !! sid)
  end.

(** States reachable from [init]. *)
Inductive reachable : State → Prop :=
| reachable_init : reachable init
| reachable_step s ev : reachable s → event_ok s ev → reachable (step s ev).1.

(** Every listed room has a participant. *)
Definition rooms_nonempty (rs : gmap RoomId Room) : Prop :=
  ∀ r room, rs !! r = Some room → users room ≠ [].

(** The registry, the [roomId] properties and the Socket.IO rooms agree:
    a participant of a room is a live connection whose [roomId] is that
    room; a connection with a [roomId] is in the Socket.IO room and in the
    registry room of that name; stored locations belong to participants. *)
Record coherent (s : State) : Prop := mkCoherent {
  coh_nonempty : rooms_nonempty (rooms s);
  coh_member : ∀ r u,
    u ∈ members (rooms s) r → sockets s !! u = Some (Some r);
  coh_joined : ∀ u r,
    sockets s !! u = Some (Some r) →
    r ≠ "" ∧ u ∈ adapter_members s r ∧ u ∈ members (rooms s) r;
  coh_located : ∀ r u, u ∈ located (rooms s) r → u ∈ members (rooms s) r
}.

(** A delivery names its receiver: a [user-joined] about the receiver, or
    a [room-state] listing the receiver among the users or locations. *)
Definition names_receiver (d : Delivery) : Prop :=
  match d.2 with
  | MUserJoined q => q = d.1
  | MRoomState us locs => d.1 ∈ us ∨ d.1 ∈ locs.*1.*1
  | _ => False
  end.

(** Socket.IO's side of the state: only live connections sit in Socket.IO
    rooms, and every live connection sits in the room named by its own
    id. *)
Record adapter_ok (s : State) : Prop := mkAdapterOk {
  ad_live : ∀ r u, u ∈ adapter_members s r → is_Some (sockets s !! u);
  ad_own : ∀ u, is_Some (sockets s !! u) → u ∈ adapter_members s u
}.


(** The stored location of [u] in room [r]:
    [rooms.get(r).locations.get(u)], [None] when either is missing. *)
Definition location_of (rs : gmap RoomId Room) (r : RoomId) (u : SocketId)
    : option LatLng :=
  match rs !! r with
  | Some room => JS.Map_get u (locations room)
  | None => None
  end.

(** *** The [leaveRoom] helper *)

Lemma leaveRoom_lookup_ne u r r' (rs : gmap RoomId Room) :
  r' ≠ r → leaveRoom u r rs !! r' = rs !! r'.
Proof.
  intros Hne. unfold leaveRoom. destruct (rs !! r) as [room |]; [| done].
  case_decide.
  - by rewrite lookup_delete_ne.
  - by rewrite lookup_insert_ne.
Qed.

Lemma leaveRoom_lookup_Some u r r' (rs : gmap RoomId Room) room' :
  leaveRoom u r rs !! r' = Some room' →
  ∃ room, rs !! r' = Some room ∧
    (r' ≠ r ∧ room' = room ∨
     r' = r ∧ users room' = JS.Set_delete u (users room) ∧
       locations room' = JS.Map_delete u (locations room) ∧
       users room' ≠ []).
Proof.
  destruct (decide (r' = r)) as [-> | Hne].
  - unfold leaveRoom. destruct (rs !! r) as [room |] eqn:Hr; [| by rewrite Hr].
    case_decide as Hlen.
    + by rewrite lookup_delete_eq.
    + rewrite lookup_insert_eq. intros [= <-]. exists room. split; [done |].
      right. simpl in *. split_and!; try done.
      intros Hnil. by rewrite Hnil in Hlen.
  - rewrite leaveRoom_lookup_ne by done. intros Hr. exists room'. auto.
Qed.

Lemma leaveRoom_members u r r' v (rs : gmap RoomId Room) :
  v ∈ members (leaveRoom u r rs) r' ↔ v ∈ members rs r' ∧ (r' = r → v ≠ u).
Proof.
  unfold members. destruct (decide (r' = r)) as [-> | Hne].
  - unfold leaveRoom. destruct (rs !! r) as [room |] eqn:Hr.
    + case_decide as Hlen.
      * rewrite lookup_delete_eq. simpl in Hlen.
        apply nil_length_inv in Hlen. split.
        -- intros []%not_elem_of_nil.
        -- intros [Hv Hu]. specialize (Hu eq_refl).
           assert (Hin : v ∈ JS.Set_delete u (users room))
             by (apply JS.elem_of_Set_delete; done).
           rewrite Hlen in Hin. done.
      * rewrite lookup_insert_eq. simpl. rewrite JS.elem_of_Set_delete.
        ids_solver.
    + rewrite Hr. split; [intros []%not_elem_of_nil | intros [[]%not_elem_of_nil _]].
  - rewrite leaveRoom_lookup_ne by done. ids_solver.
Qed.

Lemma leaveRoom_nonempty u r (rs : gmap RoomId Room) :
  rooms_nonempty rs → rooms_nonempty (leaveRoom u r rs).
Proof.
  intros Hne r' room' (room & Hroom & [[_ ->] | (_ & _ & _ & Hus)])%leaveRoom_lookup_Some.
  - by eapply Hne.
  - done.
Qed.

(** Removing the last participant removes the room in the same call. *)
Lemma leaveRoom_last u r (rs : gmap RoomId Room) room :
  rs !! r = Some room → (∀ v, v ∈ users room → v = u) →
  leaveRoom u r rs !! r = None.
Proof.
  intros Hr Hlast. unfold leaveRoom. rewrite Hr.
  assert (Hnil : JS.Set_delete u (users room) = []).
  { apply elem_of_nil_inv. intros v [Hv Hin]%JS.elem_of_Set_delete.
    apply Hv. auto. }
  case_decide as Hlen; [apply lookup_delete_eq |].
  simpl in Hlen. by rewrite Hnil in Hlen.
Qed.

(** A participant that stays in the room keeps the room alive. *)
Lemma leaveRoom_not_last u r v (rs : gmap RoomId Room) room :
  rs !! r = Some room → v ∈ users room → v ≠ u →
  ∃ room', leaveRoom u r rs !! r = Some room' ∧
    users room' = JS.Set_delete u (users room) ∧
    locations room' = JS.Map_delete u (locations room).
Proof.
  intros Hr Hv Hvu. unfold leaveRoom. rewrite Hr.
  assert (Hin : v ∈ JS.Set_delete u (users room))
    by (apply JS.elem_of_Set_delete; done).
  case_decide as Hlen.
  - simpl in Hlen. apply nil_length_inv in Hlen. rewrite Hlen in Hin.
    by apply not_elem_of_nil in Hin.
  - rewrite lookup_insert_eq. eexists. split; [done |]. done.
Qed.

(** *** Rooms of the registry are never empty *)

Lemma join_room_rooms_ne s sid roomId r :
  r ≠ roomId →
  rooms (join_room s sid roomId).1 !! r =
  leave_previous s sid !! r.
Proof.
  intros Hne. unfold join_room. simpl. rewrite lookup_insert_ne by done.
  destruct (leave_previous s sid !! roomId); [done |].
  by rewrite lookup_insert_ne.
Qed.

Lemma join_room_rooms_eq s sid roomId :
  rooms (join_room s sid roomId).1 !! roomId =
  Some {| users := JS.Set_add sid (members (leave_previous s sid) roomId);
          locations :=
            match leave_previous s sid !! roomId with
            | Some room => locations room
            | None => []
            end |}.
Proof.
  unfold join_room, members. simpl. rewrite lookup_insert_eq.
  destruct (leave_previous s sid !! roomId) as [room |] eqn:Hr.
  - by rewrite Hr.
  - by rewrite lookup_insert_eq.
Qed.

Lemma leave_previous_nonempty s sid :
  rooms_nonempty (rooms s) → rooms_nonempty (leave_previous s sid).
Proof.
  intros Hne. unfold leave_previous. destruct (JS.truthy _); [| done].
  by apply leaveRoom_nonempty.
Qed.

Lemma join_room_nonempty s sid roomId :
  rooms_nonempty (rooms s) → rooms_nonempty (rooms (join_room s sid roomId).1).
Proof.
  intros Hne r room. destruct (decide (r = roomId)) as [-> | Hr].
  - rewrite join_room_rooms_eq. intros [= <-]. simpl. apply JS.Set_add_not_nil.
  - rewrite join_room_rooms_ne by done. by apply leave_previous_nonempty.
Qed.

Lemma location_update_nonempty s sid data :
  rooms_nonempty (rooms s) → rooms_nonempty (rooms (location_update s sid data).1).
Proof.
  intros Hne. unfold location_update. case_decide; [| done].
  destruct (rooms s !! ld_roomId data) as [room |] eqn:Hroom; [| done].
  simpl. intros r room'. destruct (decide (r = ld_roomId data)) as [-> | Hr].
  - rewrite lookup_insert_eq. intros [= <-]. simpl. by eapply Hne.
  - rewrite lookup_insert_ne by done. apply Hne.
Qed.

Lemma disconnect_nonempty s sid :
  rooms_nonempty (rooms s) → rooms_nonempty (rooms (disconnect s sid).1).
Proof.
  intros Hne. unfold disconnect. destruct (JS.truthy _); simpl; [| done].
  by apply leaveRoom_nonempty.
Qed.

Lemma step_nonempty s ev :
  rooms_nonempty (rooms s) → rooms_nonempty (rooms (step s ev).1).
Proof.
  intros Hne. destruct ev as [sid | sid r | sid data | sid data | sid]; simpl.
  - done.
  - by apply join_room_nonempty.
  - unfold webrtc_signal. repeat case_match; done.
  - by apply location_update_nonempty.
  - by apply disconnect_nonempty.
Qed.

Lemma rooms_nonempty_iff (rs : gmap RoomId Room) :
  rooms_nonempty rs → ∀ r, is_Some (rs !! r) ↔ members rs r ≠ [].
Proof.
  intros Hne r. unfold members. split.
  - intros [room Hroom]. rewrite Hroom. by eapply Hne.
  - destruct (rs !! r); [eauto | done].
Qed.

(** C3: after any single event the coordinator processes, a room is
    listed in the registry exactly when its participant set is non-empty;
    a join to an unlisted room creates it with the joiner as its only
    participant, and the step (disconnect, or join to another room) that
    removes the last participant of a room removes the room. *)
Theorem room_listed_iff_nonempty (s : State) (ev : Event) :
  rooms_nonempty (rooms s) →
  (∀ r, is_Some (rooms (step s ev).1 !! r) ↔ members (rooms (step s ev).1) r ≠ []) ∧
  (∀ sid r, rooms s !! r = None →
     rooms (step s (EJoinRoom sid r)).1 !! r
     = Some {| users := [sid]; locations := [] |}) ∧
  (∀ sid r room,
     socket_roomId s sid = Some r → r ≠ "" →
     rooms s !! r = Some room → (∀ v, v ∈ users room → v = sid) →
     rooms (step s (EDisconnect sid)).1 !! r = None ∧
     ∀ r', r' ≠ r → rooms (step s (EJoinRoom sid r')).1 !! r = None).
Proof.
  intros Hne. split_and!.
  - apply rooms_nonempty_iff, step_nonempty, Hne.
  - intros sid r Hr. cbn [step]. rewrite join_room_rooms_eq.
    assert (Hleft : leave_previous s sid !! r = None).
    { unfold leave_previous. destruct (JS.truthy _); [| done].
      destruct (leaveRoom _ _ _ !! r) as [room' |] eqn:Hl; [| done].
      apply leaveRoom_lookup_Some in Hl as (room & Hroom & _). congruence. }
    unfold members. by rewrite Hleft.
  - intros sid r room Hsock Hr Hroom Hlast.
    assert (Htruthy : JS.truthy (socket_roomId s sid) = true).
    { rewrite Hsock. simpl. by apply bool_decide_eq_true. }
    split.
    + cbn [step]. unfold disconnect. rewrite Htruthy, Hsock. simpl.
      by eapply leaveRoom_last.
    + intros r' Hr'. cbn [step]. rewrite join_room_rooms_ne by done.
      unfold leave_previous. rewrite Htruthy, Hsock. simpl.
      by eapply leaveRoom_last.
Qed.

(** *** Socket.IO rooms *)

Lemma elem_of_adapter_join u sid r r' (a : gmap RoomId (list SocketId)) :
  u ∈ default [] (adapter_join sid r a !! r') ↔
  u ∈ default [] (a !! r') ∨ (r' = r ∧ u = sid).
Proof.
  unfold adapter_join. destruct (decide (r' = r)) as [-> | Hne].
  - rewrite lookup_insert_eq. simpl. rewrite JS.elem_of_Set_add. ids_solver.
  - rewrite lookup_insert_ne by done. ids_solver.
Qed.

Lemma elem_of_adapter_leave_all u sid r (a : gmap RoomId (list SocketId)) :
  u ∈ default [] (adapter_leave_all sid a !! r) ↔
  u ≠ sid ∧ u ∈ default [] (a !! r).
Proof.
  unfold adapter_leave_all. rewrite lookup_fmap.
  destruct (a !! r) as [l |]; simpl.
  - apply JS.elem_of_Set_delete.
  - split; [intros []%not_elem_of_nil | intros [_ []%not_elem_of_nil]].
Qed.

Lemma elem_of_socket_to s sid r m u m' :
  (u, m') ∈ socket_to s sid r m ↔ m' = m ∧ u ≠ sid ∧ u ∈ adapter_members s r.
Proof.
  unfold socket_to. rewrite list_elem_of_fmap. split.
  - intros (v & [= -> ->] & [Hne Hin]%list_elem_of_filter). done.
  - intros (-> & Hne & Hin). exists u. split; [done |].
    by apply list_elem_of_filter.
Qed.

Lemma elem_of_io_to s r m u m' :
  (u, m') ∈ io_to s r m ↔ m' = m ∧ u ∈ adapter_members s r.
Proof.
  unfold io_to. rewrite list_elem_of_fmap. split.
  - intros (v & [= -> ->] & Hin). done.
  - intros (-> & Hin). exists u. done.
Qed.

(** *** Coherence of reachable states *)

Lemma socket_roomId_Some s sid r :
  socket_roomId s sid = Some r ↔ sockets s !! sid = Some (Some r).
Proof.
  unfold socket_roomId. destruct (sockets s !! sid) as [[r' |] |]; simpl;
    ids_solver.
Qed.

Lemma leaveRoom_located u r r' v (rs : gmap RoomId Room) :
  v ∈ located (leaveRoom u r rs) r' → v ∈ located rs r' ∧ (r' = r → v ≠ u).
Proof.
  unfold located. destruct (leaveRoom u r rs !! r') as [room' |] eqn:Hl.
  - apply leaveRoom_lookup_Some in Hl
      as (room & -> & [[Hne ->] | (-> & _ & Hlocs & _)]).
    + ids_solver.
    + rewrite Hlocs. intros [? ?]%JS.elem_of_Map_delete_keys. done.
  - intros []%not_elem_of_nil.
Qed.

(** After "leave previous room if any", the socket is in no room of the
    registry, and every other participant is where it was. *)
Lemma leave_previous_members s sid r v :
  coherent s →
  v ∈ members (leave_previous s sid) r ↔ v ∈ members (rooms s) r ∧ v ≠ sid.
Proof.
  intros Hcoh. unfold leave_previous.
  destruct (JS.truthy (socket_roomId s sid)) eqn:Htruthy.
  - rewrite leaveRoom_members. split; [| ids_solver].
    intros [Hin Hne]. split; [done |]. intros ->.
    apply (coh_member _ Hcoh) in Hin as Hsock.
    apply socket_roomId_Some in Hsock. rewrite Hsock in Hne. simpl in Hne.
    by apply Hne.
  - split; [| ids_solver]. intros Hin. split; [done |]. intros ->.
    apply (coh_member _ Hcoh) in Hin as Hsock.
    apply (coh_joined _ Hcoh) in Hsock as Hj. destruct Hj as (Hr & _).
    apply socket_roomId_Some in Hsock. rewrite Hsock in Htruthy. simpl in Htruthy.
    apply bool_decide_eq_false in Htruthy. by apply Htruthy.
Qed.

Lemma leave_previous_located s sid r v :
  coherent s →
  v ∈ located (leave_previous s sid) r → v ∈ members (leave_previous s sid) r.
Proof.
  intros Hcoh Hin. apply leave_previous_members; [done |].
  assert (Hloc : v ∈ located (rooms s) r ∧
                 (JS.truthy (socket_roomId s sid) = true →
                  r = default "" (socket_roomId s sid) → v ≠ sid)).
  { unfold leave_previous in Hin. destruct (JS.truthy _).
    - apply leaveRoom_located in Hin. ids_solver.
    - done. }
  destruct Hloc as [Hloc Hne]. apply (coh_located _ Hcoh) in Hloc as Hmem.
  split; [done |]. intros ->.
  apply (coh_member _ Hcoh) in Hmem as Hsock.
  apply (coh_joined _ Hcoh) in Hsock as Hj. destruct Hj as (Hr & _).
  apply socket_roomId_Some in Hsock. rewrite Hsock in Hne. simpl in Hne.
  apply Hne; [by apply bool_decide_eq_true | done | done].
Qed.

Lemma join_room_members s sid roomId r v :
  v ∈ members (rooms (join_room s sid roomId).1) r ↔
  (r = roomId ∧ v = sid) ∨ v ∈ members (leave_previous s sid) r.
Proof.
  destruct (decide (r = roomId)) as [-> | Hne].
  - unfold members at 1. rewrite join_room_rooms_eq. simpl.
    rewrite JS.elem_of_Set_add. ids_solver.
  - unfold members. rewrite join_room_rooms_ne by done. ids_solver.
Qed.

Lemma join_room_located s sid roomId r :
  located (rooms (join_room s sid roomId).1) r = located (leave_previous s sid) r.
Proof.
  unfold located. destruct (decide (r = roomId)) as [-> | Hne].
  - rewrite join_room_rooms_eq. simpl.
    by destruct (leave_previous s sid !! roomId).
  - by rewrite join_room_rooms_ne.
Qed.

Lemma join_room_coherent s sid roomId :
  coherent s → event_ok s (EJoinRoom sid roomId) →
  coherent (join_room s sid roomId).1.
Proof.
  intros Hcoh [Hlive Hname]. split.
  - apply join_room_nonempty, Hcoh.
  - intros r u [[-> ->] | Hin]%join_room_members.
    + simpl. apply lookup_insert_eq.
    + apply leave_previous_members in Hin as [Hin Hne]; [| done].
      simpl. rewrite lookup_insert_ne by done. by apply Hcoh.
  - intros u r. simpl. destruct (decide (u = sid)) as [-> | Hne].
    + rewrite lookup_insert_eq. intros [= <-]. split_and!; [done | |].
      * unfold adapter_members. simpl. apply elem_of_adapter_join. auto.
      * apply join_room_members. auto.
    + rewrite lookup_insert_ne by done. intros Hsock.
      apply (coh_joined _ Hcoh) in Hsock as (Hr & Had & Hmem).
      split_and!; [done | |].
      * unfold adapter_members. simpl. apply elem_of_adapter_join. auto.
      * apply join_room_members. right. by apply leave_previous_members.
  - intros r u. rewrite join_room_located. intros Hin.
    apply join_room_members. right. by apply leave_previous_located.
Qed.

Lemma disconnect_rooms s sid :
  rooms (disconnect s sid).1 = leave_previous s sid.
Proof. unfold disconnect, leave_previous. by destruct (JS.truthy _). Qed.

Lemma disconnect_adapter s sid :
  adapter (disconnect s sid).1 = adapter_leave_all sid (adapter s).
Proof. unfold disconnect. by destruct (JS.truthy _). Qed.

Lemma disconnect_sockets s sid :
  sockets (disconnect s sid).1 = delete sid (sockets s).
Proof. unfold disconnect. by destruct (JS.truthy _). Qed.

Lemma disconnect_coherent s sid : coherent s → coherent (disconnect s sid).1.
Proof.
  intros Hcoh. split.
  - apply disconnect_nonempty, Hcoh.
  - intros r u. rewrite disconnect_rooms, disconnect_sockets.
    intros [Hin Hne]%leave_previous_members; [| done].
    rewrite lookup_delete_ne by done. by apply Hcoh.
  - intros u r. rewrite disconnect_rooms, disconnect_sockets.
    unfold adapter_members. rewrite disconnect_adapter.
    destruct (decide (u = sid)) as [-> | Hne]; [by rewrite lookup_delete_eq |].
    rewrite lookup_delete_ne by done. intros Hsock.
    apply (coh_joined _ Hcoh) in Hsock as (Hr & Had & Hmem).
    split_and!; [done | |].
    + by apply elem_of_adapter_leave_all.
    + by apply leave_previous_members.
  - intros r u. rewrite disconnect_rooms. by apply leave_previous_located.
Qed.

Lemma connection_coherent s sid :
  coherent s → event_ok s (EConnection sid) → coherent (connection s sid).1.
Proof.
  intros Hcoh Hfresh. simpl in Hfresh. split; simpl.
  - apply Hcoh.
  - intros r u Hin. apply (coh_member _ Hcoh) in Hin.
    rewrite lookup_insert_ne; [done |]. intros ->. congruence.
  - intros u r. destruct (decide (u = sid)) as [-> | Hne].
    + by rewrite lookup_insert_eq.
    + rewrite lookup_insert_ne by done. intros Hsock.
      apply (coh_joined _ Hcoh) in Hsock as (Hr & Had & Hmem).
      split_and!; [done | | done].
      unfold adapter_members. simpl. apply elem_of_adapter_join. auto.
  - apply Hcoh.
Qed.

Lemma location_update_members s sid data r :
  members (rooms (location_update s sid data).1) r = members (rooms s) r.
Proof.
  unfold location_update. case_decide; [| done].
  destruct (rooms s !! ld_roomId data) as [room |] eqn:Hroom; [| done].
  unfold members. simpl. destruct (decide (r = ld_roomId data)) as [-> | Hne].
  - by rewrite lookup_insert_eq, Hroom.
  - by rewrite lookup_insert_ne.
Qed.

Lemma location_update_frame s sid data :
  adapter (location_update s sid data).1 = adapter s ∧
  sockets (location_update s sid data).1 = sockets s.
Proof.
  unfold location_update. case_decide; [| done].
  by destruct (rooms s !! ld_roomId data).
Qed.

Lemma location_update_coherent s sid data :
  coherent s → coherent (location_update s sid data).1.
Proof.
  intros Hcoh. destruct (location_update_frame s sid data) as [Had Hso].
  split.
  - apply location_update_nonempty, Hcoh.
  - intros r u. rewrite location_update_members, Hso. apply Hcoh.
  - intros u r. unfold adapter_members.
    rewrite location_update_members, Hso, Had. apply Hcoh.
  - intros r u. rewrite location_update_members.
    unfold location_update. case_decide as Hroom; [| apply Hcoh].
    destruct (rooms s !! ld_roomId data) as [room |] eqn:Hlook; [| apply Hcoh].
    unfold located. simpl. destruct (decide (r = ld_roomId data)) as [-> | Hne].
    + rewrite lookup_insert_eq. simpl.
      intros [-> | Hin]%JS.elem_of_Map_set_keys_inv.
      * apply socket_roomId_Some in Hroom. by apply Hcoh.
      * apply (coh_located _ Hcoh). unfold located. by rewrite Hlook.
    + rewrite lookup_insert_ne by done. apply (coh_located _ Hcoh).
Qed.

Lemma webrtc_signal_state s sid data : (webrtc_signal s sid data).1 = s.
Proof. unfold webrtc_signal. repeat case_match; done. Qed.

Lemma step_coherent s ev :
  coherent s → event_ok s ev → coherent (step s ev).1.
Proof.
  intros Hcoh Hok. destruct ev as [sid | sid r | sid data | sid data | sid];
    cbn [step].
  - by apply connection_coherent.
  - by apply join_room_coherent.
  - by rewrite webrtc_signal_state.
  - by apply location_update_coherent.
  - by apply disconnect_coherent.
Qed.

Lemma init_coherent : coherent init.
Proof.
  split; unfold rooms_nonempty, members, located, adapter_members; simpl.
  - intros r room. by rewrite lookup_empty.
  - intros r u. rewrite lookup_empty. intros []%not_elem_of_nil.
  - intros u r. by rewrite lookup_empty.
  - intros r u. by rewrite lookup_empty.
Qed.

Lemma reachable_coherent s : reachable s → coherent s.
Proof.
  induction 1 as [| s ev _ IH Hok]; [apply init_coherent |].
  by apply step_coherent.
Qed.

(** *** Joining a room *)

Lemma join_room_out s sid roomId :
  ∃ room', rooms (join_room s sid roomId).1 !! roomId = Some room' ∧
    (join_room s sid roomId).2 =
      socket_to (join_room s sid roomId).1 sid roomId (MUserJoined sid)
      ++ [(sid, room_state sid room')].
Proof.
  unfold join_room. cbn [fst snd rooms]. rewrite lookup_insert_eq.
  eexists. split; reflexivity.
Qed.

Lemma join_room_not_names s sid roomId d :
  coherent s → d ∈ (join_room s sid roomId).2 → ¬ names_receiver d.
Proof.
  intros Hcoh Hd. destruct (join_room_out s sid roomId) as (room' & Hroom' & Hout).
  rewrite Hout in Hd. destruct d as [u m].
  apply elem_of_app in Hd as [Hd | Hd].
  - apply elem_of_socket_to in Hd as (-> & Hne & _). unfold names_receiver.
    simpl. congruence.
  - apply list_elem_of_singleton in Hd as [= -> ->].
    unfold names_receiver, room_state. simpl. intros [Hin | Hin].
    + apply list_elem_of_filter in Hin as [Hne _]. done.
    + rewrite <- list_fmap_compose in Hin.
      assert (Hloc : sid ∈ located (rooms (join_room s sid roomId).1) roomId).
      { unfold located. rewrite Hroom'.
        by rewrite <- list_fmap_compose in Hin. }
      rewrite join_room_located in Hloc.
      apply leave_previous_located in Hloc; [| done].
      apply leave_previous_members in Hloc as [_ Hne]; done.
Qed.

Lemma step_not_names s ev d :
  coherent s → d ∈ (step s ev).2 → ¬ names_receiver d.
Proof.
  intros Hcoh. destruct ev as [sid | sid r | sid data | sid data | sid];
    cbn [step].
  - intros []%not_elem_of_nil.
  - by apply join_room_not_names.
  - unfold webrtc_signal. destruct d as [u m].
    repeat case_match; simpl;
      [intros [-> _]%elem_of_io_to | intros [-> _]%elem_of_socket_to
      | intros []%not_elem_of_nil]; unfold names_receiver; simpl; tauto.
  - unfold location_update. destruct d as [u m].
    repeat case_match; simpl;
      [intros [-> _]%elem_of_socket_to | intros []%not_elem_of_nil
      | intros []%not_elem_of_nil]; unfold names_receiver; simpl; tauto.
  - unfold disconnect. destruct d as [u m].
    repeat case_match; simpl;
      [intros [-> _]%elem_of_io_to | intros []%not_elem_of_nil];
      unfold names_receiver; simpl; tauto.
Qed.

(** C2: when participant [P] joins room [R], every participant of [R]
    other than [P] is sent [user-joined{P}] and [P] is not; the
    [room-state] snapshot sent to [P] lists exactly the participants of
    [R] other than [P]; and no delivery of any event names its receiver
    in a [user-joined] or in a [room-state] entry. *)
Theorem join_room_announces_to_others (s : State) (P : SocketId) (R : RoomId) :
  coherent s → event_ok s (EJoinRoom P R) →
  (∀ u, u ∈ members (rooms (join_room s P R).1) R → u ≠ P →
        (u, MUserJoined P) ∈ (join_room s P R).2) ∧
  ((P, MUserJoined P) ∉ (join_room s P R).2) ∧
  (∃ us locs, (P, MRoomState us locs) ∈ (join_room s P R).2 ∧
     ∀ v, v ∈ us ↔ v ∈ members (rooms (join_room s P R).1) R ∧ v ≠ P) ∧
  (∀ ev d, d ∈ (step s ev).2 → ¬ names_receiver d).
Proof.
  intros Hcoh Hok.
  pose proof (join_room_coherent s P R Hcoh Hok) as Hcoh'.
  destruct (join_room_out s P R) as (room' & Hroom' & Hout).
  split_and!.
  - intros u Hin Hne. rewrite Hout. apply elem_of_app. left.
    apply elem_of_socket_to. split_and!; [done | done |].
    apply (coh_member _ Hcoh') in Hin.
    apply (coh_joined _ Hcoh') in Hin as (_ & Had & _). done.
  - rewrite Hout. intros [Hin | Hin]%elem_of_app.
    + apply elem_of_socket_to in Hin as (_ & Hne & _). done.
    + by apply list_elem_of_singleton in Hin.
  - eexists _, _. split.
    + rewrite Hout. apply elem_of_app. right. apply list_elem_of_singleton.
      reflexivity.
    + intros v. rewrite (list_elem_of_filter (λ id, id ≠ P)).
      unfold members. rewrite Hroom'. tauto.
  - intros ev d. by apply step_not_names.
Qed.

(** *** Relaying signals *)

(** C5: a relayed [webrtc-signal], targeted or broadcast, carries the
    sending connection's id in [from]; the [from] supplied by the caller
    does not influence the state or the deliveries. *)
Theorem webrtc_signal_from_is_sender
    (s : State) (sid : SocketId) (roomId : RoomId)
    (from1 from2 to : option SocketId) (signal : Payload) :
  webrtc_signal s sid (mkSignalData roomId from1 to signal)
  = webrtc_signal s sid (mkSignalData roomId from2 to signal) ∧
  ∀ u m, (u, m) ∈ (webrtc_signal s sid (mkSignalData roomId from1 to signal)).2 →
         m = MWebrtcSignal roomId sid signal.
Proof.
  split; [reflexivity |]. intros u m. unfold webrtc_signal. simpl.
  repeat case_match; simpl.
  - by intros [-> _]%elem_of_io_to.
  - by intros [-> _]%elem_of_socket_to.
  - intros []%not_elem_of_nil.
Qed.

(** *** Location updates *)

(** C6: a [location-update] naming a room other than the caller's
    registered room, or a room that is not in the registry, changes
    nothing and delivers nothing; otherwise the caller's stored location
    becomes the new one, nothing else in the registry changes, and every
    other participant of the room is sent the update. *)
Theorem location_update_guarded (s : State) (sid : SocketId) (data : LocationData) :
  coherent s →
  (socket_roomId s sid ≠ Some (ld_roomId data) ∨ rooms s !! ld_roomId data = None →
   location_update s sid data = (s, [])) ∧
  (∀ room, socket_roomId s sid = Some (ld_roomId data) →
     rooms s !! ld_roomId data = Some room →
     (location_update s sid data).1 =
       {| rooms := <[ld_roomId data :=
                      {| users := users room;
                         locations := JS.Map_set sid
                           (mkLatLng (ld_lat data) (ld_lng data)) (locations room) |}]>
                   (rooms s);
          adapter := adapter s; sockets := sockets s |} ∧
     JS.Map_get sid (locations
        (default room (rooms (location_update s sid data).1 !! ld_roomId data)))
       = Some (mkLatLng (ld_lat data) (ld_lng data)) ∧
     (∀ u, u ∈ users room → u ≠ sid →
        (u, MLocationUpdate (ld_roomId data) sid (ld_lat data) (ld_lng data))
          ∈ (location_update s sid data).2) ∧
     (∀ u m, (u, m) ∈ (location_update s sid data).2 →
        u ≠ sid ∧
        m = MLocationUpdate (ld_roomId data) sid (ld_lat data) (ld_lng data))).
Proof.
  intros Hcoh. split.
  - intros Hguard. unfold location_update. case_decide as Hroom; [| done].
    destruct Hguard as [Hne | ->]; done.
  - intros room Hsock Hroom. unfold location_update.
    rewrite decide_True by done. rewrite Hroom. cbn [fst snd rooms].
    split_and!.
    + done.
    + rewrite lookup_insert_eq. simpl. apply JS.Map_get_Map_set_eq.
    + intros u Hin Hne. apply elem_of_socket_to. split_and!; [done | done |].
      assert (Hmem : u ∈ members (rooms s) (ld_roomId data))
        by (unfold members; by rewrite Hroom).
      apply (coh_member _ Hcoh) in Hmem.
      apply (coh_joined _ Hcoh) in Hmem as (_ & Had & _). done.
    + intros u m (-> & Hne & _)%elem_of_socket_to. done.
Qed.

(** *** Disconnecting *)

(** C10: when a connection that has no [roomId] (it never joined a room)
    disconnects, the registry is unchanged and nothing is delivered. *)
Theorem disconnect_never_joined (s : State) (sid : SocketId) :
  socket_roomId s sid = None →
  rooms (disconnect s sid).1 = rooms s ∧ (disconnect s sid).2 = [].
Proof. intros Hnone. unfold disconnect. rewrite Hnone. done. Qed.

(** The handler of a room switch delivers no [user-left] at all. *)
Lemma join_room_no_user_left s sid roomId u q :
  (u, MUserLeft q) ∉ (join_room s sid roomId).2.
Proof.
  destruct (join_room_out s sid roomId) as (room' & _ & ->).
  intros [Hin | Hin]%elem_of_app.
  - by apply elem_of_socket_to in Hin as (? & _).
  - by apply list_elem_of_singleton in Hin.
Qed.

Lemma step_roomId_unset s ev sid :
  (∀ r, ev ≠ EJoinRoom sid r) →
  socket_roomId s sid = None → socket_roomId (step s ev).1 sid = None.
Proof.
  intros Hev Hnone. unfold socket_roomId in *.
  destruct ev as [sid' | sid' r | sid' data | sid' data | sid']; cbn [step].
  - simpl. destruct (decide (sid = sid')) as [-> | Hne].
    + by rewrite lookup_insert_eq.
    + by rewrite lookup_insert_ne.
  - simpl. rewrite lookup_insert_ne; [done |]. intros ->. by eapply Hev.
  - by rewrite webrtc_signal_state.
  - by destruct (location_update_frame s sid' data) as [_ ->].
  - rewrite disconnect_sockets. destruct (decide (sid = sid')) as [-> | Hne].
    + by rewrite lookup_delete_eq.
    + by rewrite lookup_delete_ne.
Qed.

(** [socket.roomId] is assigned by the join handler only: a connection
    that sent no [join-room] has none. *)
Lemma never_joined_roomId evs sid :
  (∀ r, EJoinRoom sid r ∉ evs) → socket_roomId (run init evs) sid = None.
Proof.
  assert (Hgen : ∀ s, socket_roomId s sid = None →
            (∀ r, EJoinRoom sid r ∉ evs) → socket_roomId (run s evs) sid = None).
  { induction evs as [| ev evs IH]; intros s Hs Hno; [done |].
    simpl. apply IH.
    - apply step_roomId_unset; [| done]. intros r ->. apply (Hno r). left.
    - intros r Hin. apply (Hno r). by right. }
  apply Hgen. unfold socket_roomId. simpl. by rewrite lookup_empty.
Qed.

(** *** Socket.IO rooms hold live connections *)

Lemma connection_adapter_ok s sid :
  adapter_ok s → adapter_ok (connection s sid).1.
Proof.
  intros [Hlive Hown]. split; unfold adapter_members in *; simpl.
  - intros r u [Hin | [-> ->]]%elem_of_adapter_join.
    + destruct (decide (u = sid)) as [-> | Hne].
      * by rewrite lookup_insert_eq.
      * rewrite lookup_insert_ne by done. by eapply Hlive.
    + by rewrite lookup_insert_eq.
  - intros u Hu. apply elem_of_adapter_join.
    destruct (decide (u = sid)) as [-> | Hne]; [by right |].
    rewrite lookup_insert_ne in Hu by done. left. by apply Hown.
Qed.

Lemma join_room_adapter_ok s sid roomId :
  adapter_ok s → is_Some (sockets s !! sid) →
  adapter_ok (join_room s sid roomId).1.
Proof.
  intros [Hlive Hown] Hsid. split; unfold adapter_members in *; simpl.
  - intros r u [Hin | [-> ->]]%elem_of_adapter_join.
    + destruct (decide (u = sid)) as [-> | Hne].
      * by rewrite lookup_insert_eq.
      * rewrite lookup_insert_ne by done. by eapply Hlive.
    + by rewrite lookup_insert_eq.
  - intros u Hu. apply elem_of_adapter_join. left. apply Hown.
    destruct (decide (u = sid)) as [-> | Hne]; [done |].
    by rewrite lookup_insert_ne in Hu.
Qed.

Lemma disconnect_adapter_ok s sid :
  adapter_ok s → adapter_ok (disconnect s sid).1.
Proof.
  intros [Hlive Hown]. split; unfold adapter_members in *;
    rewrite disconnect_adapter, disconnect_sockets.
  - intros r u [Hne Hin]%elem_of_adapter_leave_all.
    rewrite lookup_delete_ne by done. by eapply Hlive.
  - intros u Hu. destruct (decide (u = sid)) as [-> | Hne].
    + rewrite lookup_delete_eq in Hu. by destruct Hu.
    + rewrite lookup_delete_ne in Hu by done.
      apply elem_of_adapter_leave_all. auto.
Qed.

Lemma step_adapter_ok s ev :
  adapter_ok s → event_ok s ev → adapter_ok (step s ev).1.
Proof.
  intros Hs Hok. destruct ev as [sid | sid r | sid data | sid data | sid];
    cbn [step].
  - by apply connection_adapter_ok.
  - destruct Hok as [Hlive _]. by apply join_room_adapter_ok.
  - by rewrite webrtc_signal_state.
  - destruct (location_update_frame s sid data) as [Had Hso].
    destruct Hs as [Hlive Hown].
    split; unfold adapter_members in *; rewrite Had, Hso; done.
  - by apply disconnect_adapter_ok.
Qed.

Lemma reachable_adapter_ok s : reachable s → adapter_ok s.
Proof.
  induction 1 as [| s ev _ IH Hok].
  - split; unfold adapter_members; simpl.
    + intros r u. rewrite lookup_empty. intros []%not_elem_of_nil.
    + intros u. rewrite lookup_empty. by intros [? ?].
  - by apply step_adapter_ok.
Qed.

Lemma step_recipient s ev u m :
  (u, m) ∈ (step s ev).2 →
  (∃ r, u ∈ adapter_members (step s ev).1 r) ∨ (∃ r, ev = EJoinRoom u r).
Proof.
  destruct ev as [sid | sid r | sid data | sid data | sid]; cbn [step].
  - intros []%not_elem_of_nil.
  - destruct (join_room_out s sid r) as (room' & _ & ->).
    intros [Hin | Hin]%elem_of_app.
    + apply elem_of_socket_to in Hin as (_ & _ & Hin). eauto.
    + apply list_elem_of_singleton in Hin as [= -> _]. eauto.
  - rewrite webrtc_signal_state. unfold webrtc_signal.
    repeat case_match; simpl.
    + intros [_ Hin]%elem_of_io_to. eauto.
    + intros (_ & _ & Hin)%elem_of_socket_to. eauto.
    + intros []%not_elem_of_nil.
  - unfold location_update. repeat case_match; simpl.
    + intros (_ & _ & Hin)%elem_of_socket_to. eauto.
    + intros []%not_elem_of_nil.
    + intros []%not_elem_of_nil.
  - unfold disconnect. repeat case_match; simpl.
    + intros [_ Hin]%elem_of_io_to. eauto.
    + intros []%not_elem_of_nil.
Qed.

(** X1: whatever the server delivers while processing an event goes to a
    connection that is live once the event is processed; in particular
    nothing is sent to the connection that has just disconnected. *)
Theorem deliveries_reach_live_connections (s : State) (ev : Event)
    (u : SocketId) (m : Msg) :
  reachable s → event_ok s ev → (u, m) ∈ (step s ev).2 →
  is_Some (sockets (step s ev).1 !! u) ∧ ev ≠ EDisconnect u.
Proof.
  intros Hs Hok Hin.
  assert (Hlive : is_Some (sockets (step s ev).1 !! u)).
  { destruct (step_recipient s ev u m Hin) as [[r Hr] | [r ->]].
    - eapply (ad_live (step s ev).1); [| exact Hr].
      by apply step_adapter_ok; [apply reachable_adapter_ok |].
    - simpl. by rewrite lookup_insert_eq. }
  split; [done |]. intros ->. cbn [step] in Hlive.
  rewrite disconnect_sockets, lookup_delete_eq in Hlive. by destruct Hlive.
Qed.

(** X2: in a reachable state a connection is a participant of room [r]
    exactly when its [roomId] is [r]; so no connection is a participant
    of two rooms, and every participant is a live connection. *)
Theorem participant_iff_roomId (s : State) (u : SocketId) (r r' : RoomId) :
  reachable s →
  (u ∈ members (rooms s) r ↔ socket_roomId s u = Some r) ∧
  (u ∈ members (rooms s) r → u ∈ members (rooms s) r' → r = r').
Proof.
  intros Hcoh%reachable_coherent. split.
  - rewrite socket_roomId_Some. split; [apply Hcoh |].
    intros Hsock. by apply (coh_joined _ Hcoh) in Hsock as (_ & _ & ?).
  - intros H1%(coh_member _ Hcoh) H2%(coh_member _ Hcoh). congruence.
Qed.

(** *** Relaying signals: who receives them *)

(** X3: a signal from a connection whose [roomId] is not the stated room
    is dropped. A signal without [to] from a connection in the stated
    room reaches every other participant of that room and never comes
    back to the sender. *)
Theorem broadcast_signal_guarded (s : State) (sid : SocketId) (data : SignalData) :
  coherent s →
  (socket_roomId s sid ≠ Some (sd_roomId data) →
   webrtc_signal s sid data = (s, [])) ∧
  (socket_roomId s sid = Some (sd_roomId data) → JS.truthy (sd_to data) = false →
   (∀ u, u ∈ members (rooms s) (sd_roomId data) → u ≠ sid →
      (u, MWebrtcSignal (sd_roomId data) sid (sd_signal data))
        ∈ (webrtc_signal s sid data).2) ∧
   (∀ u m, (u, m) ∈ (webrtc_signal s sid data).2 → u ≠ sid)).
Proof.
  intros Hcoh. split.
  - intros Hne. unfold webrtc_signal. by rewrite decide_False.
  - intros Hroom Hto. unfold webrtc_signal. rewrite decide_True by done.
    rewrite Hto. simpl. split.
    + intros u Hin Hne. apply elem_of_socket_to. split_and!; [done | done |].
      apply (coh_member _ Hcoh) in Hin.
      apply (coh_joined _ Hcoh) in Hin as (_ & Had & _). done.
    + intros u m (_ & Hne & _)%elem_of_socket_to. done.
Qed.

(** X4: a signal with [to] set, sent by a connection in the stated room,
    reaches the target connection whatever room the target is in (or in
    none), with the sender's id in [from]; the state is unchanged. *)
Theorem targeted_signal_reaches_target (s : State) (sid t : SocketId)
    (data : SignalData) :
  reachable s → socket_roomId s sid = Some (sd_roomId data) →
  sd_to data = Some t → t ≠ "" → is_Some (sockets s !! t) →
  (t, MWebrtcSignal (sd_roomId data) sid (sd_signal data))
    ∈ (webrtc_signal s sid data).2 ∧
  (webrtc_signal s sid data).1 = s.
Proof.
  intros Hs%reachable_adapter_ok Hroom Hto Ht Hlive.
  split; [| apply webrtc_signal_state].
  unfold webrtc_signal. rewrite decide_True by done. rewrite Hto. simpl.
  rewrite bool_decide_eq_true_2 by done. simpl.
  apply elem_of_io_to. split; [done |]. by apply (ad_own _ Hs).
Qed.

Lemma join_room_adapter_mono s sid roomId r u :
  u ∈ adapter_members s r → u ∈ adapter_members (join_room s sid roomId).1 r.
Proof.
  intros Hin. unfold adapter_members in *. simpl.
  apply elem_of_adapter_join. auto.
Qed.

(** X5: [join-room] puts the caller into the Socket.IO room of the given
    name, and [io.to(to)] addresses a target by the Socket.IO room named
    by its id. So a connection [P] that joins a room named by the id [t]
    of another connection receives every signal addressed to [t], and
    goes on receiving them after it has moved on to another room. *)
Theorem room_named_after_socket_overhears (s : State) (P t sid : SocketId)
    (R : RoomId) (data : SignalData) :
  sd_to data = Some t → t ≠ "" →
  (socket_roomId (join_room s P t).1 sid = Some (sd_roomId data) →
   (P, MWebrtcSignal (sd_roomId data) sid (sd_signal data))
     ∈ (webrtc_signal (join_room s P t).1 sid data).2) ∧
  (socket_roomId (join_room (join_room s P t).1 P R).1 sid = Some (sd_roomId data) →
   (P, MWebrtcSignal (sd_roomId data) sid (sd_signal data))
     ∈ (webrtc_signal (join_room (join_room s P t).1 P R).1 sid data).2).
Proof.
  intros Hto Ht.
  assert (Hin : P ∈ adapter_members (join_room s P t).1 t).
  { unfold adapter_members. simpl. apply elem_of_adapter_join. auto. }
  split; intros Hroom; unfold webrtc_signal; rewrite decide_True by done;
    rewrite Hto; simpl; rewrite bool_decide_eq_true_2 by done; simpl;
    apply elem_of_io_to; (split; [done |]).
  - done.
  - by apply join_room_adapter_mono.
Qed.

(** *** Disconnecting from a room *)

(** X6: when a connection whose [roomId] is [r] disconnects, it is
    removed from the participants and the locations of [r], every
    remaining participant stays and is sent [user-left], nothing else is
    sent, other rooms are untouched, and the connection is gone. *)
Theorem disconnect_notifies_room (s : State) (sid : SocketId) (r : RoomId) :
  coherent s → socket_roomId s sid = Some r →
  (sid ∉ members (rooms (disconnect s sid).1) r) ∧
  location_of (rooms (disconnect s sid).1) r sid = None ∧
  (∀ u, u ∈ members (rooms s) r → u ≠ sid →
     u ∈ members (rooms (disconnect s sid).1) r ∧
     (u, MUserLeft sid) ∈ (disconnect s sid).2) ∧
  (∀ u m, (u, m) ∈ (disconnect s sid).2 → u ≠ sid ∧ m = MUserLeft sid) ∧
  (∀ r', r' ≠ r → rooms (disconnect s sid).1 !! r' = rooms s !! r') ∧
  sockets (disconnect s sid).1 !! sid = None.
Proof.
  intros Hcoh Hroom.
  assert (Hsock : sockets s !! sid = Some (Some r)) by by apply socket_roomId_Some.
  destruct (coh_joined _ Hcoh _ _ Hsock) as (Hr & _ & _).
  assert (Htruthy : JS.truthy (socket_roomId s sid) = true).
  { rewrite Hroom. simpl. by apply bool_decide_eq_true. }
  assert (Hout : (disconnect s sid).2 = io_to (disconnect s sid).1 r (MUserLeft sid)).
  { unfold disconnect. by rewrite Htruthy, Hroom. }
  split_and!.
  - rewrite disconnect_rooms.
    intros [_ Hne]%leave_previous_members; done.
  - rewrite disconnect_rooms. unfold location_of.
    destruct (leave_previous s sid !! r) as [room |] eqn:Hl; [| done].
    apply JS.Map_get_None. intros Hin.
    assert (Hloc : sid ∈ located (leave_previous s sid) r)
      by (unfold located; by rewrite Hl).
    apply leave_previous_located in Hloc; [| done].
    apply leave_previous_members in Hloc as [_ Hne]; done.
  - intros u Hin Hne. split.
    + rewrite disconnect_rooms. by apply leave_previous_members.
    + rewrite Hout. apply elem_of_io_to. split; [done |].
      unfold adapter_members. rewrite disconnect_adapter.
      apply elem_of_adapter_leave_all. split; [done |].
      apply (coh_member _ Hcoh) in Hin.
      by apply (coh_joined _ Hcoh) in Hin as (_ & Had & _).
  - intros u m. rewrite Hout. intros [-> Hin]%elem_of_io_to.
    split; [| done]. unfold adapter_members in Hin.
    rewrite disconnect_adapter in Hin.
    by apply elem_of_adapter_leave_all in Hin as [Hne _].
  - intros r' Hr'. rewrite disconnect_rooms. unfold leave_previous.
    rewrite Htruthy, Hroom. simpl. by apply leaveRoom_lookup_ne.
  - rewrite disconnect_sockets. apply lookup_delete_eq.
Qed.

(** *** Switching rooms *)

(** X7: the join handler never takes the caller out of a Socket.IO room.
    After [P] has switched from room [R] to another room it is no
    participant of [R] any more, yet a [location-update] that a
    participant [Q] of [R] sends is still delivered to [P]. *)
Theorem switched_socket_still_hears_old_room (s : State) (P Q : SocketId)
    (R R' : RoomId) (data : LocationData) :
  coherent s → socket_roomId s P = Some R → R' ≠ R → R' ≠ "" →
  Q ∈ members (rooms s) R → Q ≠ P → ld_roomId data = R →
  (P ∉ members (rooms (join_room s P R').1) R) ∧
  (P, MLocationUpdate R Q (ld_lat data) (ld_lng data))
    ∈ (location_update (join_room s P R').1 Q data).2.
Proof.
  intros Hcoh HP HR' Hname HQ HQP Hdata.
  assert (HsockP : sockets s !! P = Some (Some R)) by by apply socket_roomId_Some.
  assert (Hok : event_ok s (EJoinRoom P R')) by (split; [by rewrite HsockP | done]).
  pose proof (join_room_coherent s P R' Hcoh Hok) as Hcoh1.
  assert (HQ1 : Q ∈ members (rooms (join_room s P R').1) R).
  { apply join_room_members. right. by apply leave_previous_members. }
  split.
  - intros Hin%(coh_member _ Hcoh1). simpl in Hin.
    rewrite lookup_insert_eq in Hin. congruence.
  - pose proof (coh_member _ Hcoh1 _ _ HQ1) as HsockQ.
    apply socket_roomId_Some in HsockQ.
    unfold location_update. rewrite Hdata. rewrite decide_True by done.
    unfold members in HQ1.
    destruct (rooms (join_room s P R').1 !! R) as [room |] eqn:Hroom;
      [| by apply not_elem_of_nil in HQ1].
    cbn [snd]. apply elem_of_socket_to. split_and!; [done | done |].
    unfold adapter_members. cbn [adapter].
    apply (join_room_adapter_mono s P R' R P).
    by apply (coh_joined _ Hcoh) in HsockP as (_ & Had & _).
Qed.

(** *** Stored locations across joins *)

Lemma location_of_None (rs : gmap RoomId Room) r u :
  location_of rs r u = None ↔ u ∉ located rs r.
Proof.
  unfold location_of, located. destruct (rs !! r) as [room |].
  - apply JS.Map_get_None.
  - split; [intros _; apply not_elem_of_nil | done].
Qed.

Lemma leave_previous_location_of s sid r u :
  coherent s → u ≠ sid →
  location_of (leave_previous s sid) r u = location_of (rooms s) r u.
Proof.
  intros Hcoh Hne. unfold leave_previous.
  destruct (JS.truthy (socket_roomId s sid)); [| done].
  set (old := default "" (socket_roomId s sid)).
  destruct (decide (r = old)) as [-> | Hr].
  - unfold location_of at 1. unfold leaveRoom.
    destruct (rooms s !! old) as [room |] eqn:Hroom.
    + case_decide as Hlen.
      * rewrite lookup_delete_eq. symmetry. apply location_of_None.
        intros Hin%(coh_located _ Hcoh). unfold members in Hin.
        rewrite Hroom in Hin. simpl in Hlen. apply nil_length_inv in Hlen.
        assert (Hu : u ∈ JS.Set_delete sid (users room))
          by (by apply JS.elem_of_Set_delete).
        rewrite Hlen in Hu. by apply not_elem_of_nil in Hu.
      * rewrite lookup_insert_eq. simpl. unfold location_of. rewrite Hroom.
        by apply JS.Map_get_Map_delete_ne.
    + unfold location_of. by rewrite Hroom.
  - unfold location_of. by rewrite leaveRoom_lookup_ne.
Qed.

Lemma join_room_location_of s sid roomId r u :
  location_of (rooms (join_room s sid roomId).1) r u
  = location_of (leave_previous s sid) r u.
Proof.
  unfold location_of. destruct (decide (r = roomId)) as [-> | Hne].
  - rewrite join_room_rooms_eq. simpl.
    by destruct (leave_previous s sid !! roomId).
  - by rewrite join_room_rooms_ne.
Qed.

(** X8: a join to the room the caller is already in keeps the set of
    participants, forgets the caller's stored location, and leaves the
    stored locations of the others as they were. *)
Theorem rejoin_same_room_drops_location (s : State) (P : SocketId) (R : RoomId) :
  coherent s → socket_roomId s P = Some R →
  (∀ u, u ∈ members (rooms (join_room s P R).1) R ↔ u ∈ members (rooms s) R) ∧
  location_of (rooms (join_room s P R).1) R P = None ∧
  (∀ u, u ≠ P →
     location_of (rooms (join_room s P R).1) R u = location_of (rooms s) R u).
Proof.
  intros Hcoh HP.
  assert (Hsock : sockets s !! P = Some (Some R)) by by apply socket_roomId_Some.
  destruct (coh_joined _ Hcoh _ _ Hsock) as (_ & _ & Hmem).
  split_and!.
  - intros u. rewrite join_room_members, (leave_previous_members s P R u Hcoh).
    destruct (decide (u = P)) as [-> | Hne]; ids_solver.
  - rewrite join_room_location_of. apply location_of_None.
    intros Hloc%leave_previous_located; [| done].
    by apply leave_previous_members in Hloc as [_ Hne].
  - intros u Hne. rewrite join_room_location_of.
    by apply leave_previous_location_of.
Qed.

(** *** No duplicates in the registry *)









End coordinator.

(** *** A two-participant scenario

    Connections [A] and [B] are opened and both join room [r1], [A]
    first. Coordinates are integers and signals are strings here. *)

Definition two_in_r1_events : list (@Event Z string) :=
  [EConnection "A"; EConnection "B"; EJoinRoom "A" "r1"; EJoinRoom "B" "r1"].

Definition two_in_r1 : @State Z := run init two_in_r1_events.

(** All events of a list are possible, each in the state it arrives in. *)
Fixpoint events_ok {Coord Payload : Type}
    (s : @State Coord) (evs : list (@Event Coord Payload)) : Prop :=
  match evs with
  | [] => True
  | ev :: evs' => event_ok s ev ∧ events_ok (step s ev).1 evs'
  end.

Lemma run_reachable {Coord Payload : Type}
    (s : @State Coord) (evs : list (@Event Coord Payload)) :
  reachable (Payload := Payload) s → events_ok s evs → reachable (Payload := Payload) (run s evs).
Proof.
  revert s. induction evs as [| ev evs IH]; intros s Hs Hok; [done |].
  destruct Hok as [Hev Hok]. simpl. apply IH; [| done].
  by apply reachable_step.
Qed.

(** The same scenario before [B] joins. *)
Definition one_in_r1 : @State Z :=
  run init [EConnection "A"; EConnection "B"; EJoinRoom "A" "r1" : @Event Z string].

Lemma two_in_r1_coherent : coherent two_in_r1.
Proof.
  apply (reachable_coherent (Payload := string)).
  apply (run_reachable init two_in_r1_events); [apply reachable_init |].
  vm_compute. split_and!; eauto; done.
Qed.

Lemma one_in_r1_coherent : coherent one_in_r1.
Proof.
  apply (reachable_coherent (Payload := string)).
  apply (run_reachable init
           [EConnection "A"; EConnection "B"; EJoinRoom "A" "r1"]);
    [apply reachable_init |].
  vm_compute. split_and!; eauto; done.
Qed.

Example two_in_r1_rooms :
  rooms two_in_r1 = {[ "r1" := {| users := ["A"; "B"]; locations := [] |} ]}.
Proof. vm_compute. reflexivity. Qed.

(** [B] joins second: its snapshot lists [A] only, and [A] alone is told. *)
Example second_join_deliveries :
  (join_room (Payload := string) one_in_r1 "B" "r1").2
  = [("A", MUserJoined "B"); ("B", MRoomState ["A"] [])].
Proof. vm_compute. reflexivity. Qed.

Lemma room_listed_iff_nonempty_witness :
  rooms_nonempty (rooms two_in_r1) ∧
  (is_Some (rooms (step two_in_r1 (EDisconnect "B" : @Event Z string)).1 !! "r1") ↔
   members (rooms (step two_in_r1 (EDisconnect "B" : @Event Z string)).1) "r1" ≠ []).
Proof.
  split; [apply two_in_r1_coherent |].
  apply (proj1 (room_listed_iff_nonempty two_in_r1 (EDisconnect "B")
                  (coh_nonempty _ two_in_r1_coherent))).
Defined.

Lemma join_room_announces_to_others_witness :
  event_ok one_in_r1 (EJoinRoom "B" "r1" : @Event Z string) ∧
  ("A", MUserJoined "B") ∈ (join_room (Payload := string) one_in_r1 "B" "r1").2.
Proof.
  assert (Hok : event_ok one_in_r1 (EJoinRoom "B" "r1" : @Event Z string))
    by (vm_compute; split; [eauto | done]).
  split; [exact Hok |].
  apply (proj1 (join_room_announces_to_others (Payload := string)
                  one_in_r1 "B" "r1" one_in_r1_coherent Hok)).
  - vm_compute. constructor.
  - done.
Defined.

Lemma location_update_guarded_witness :
  location_update (Payload := string) two_in_r1 "A" (mkLocationData "r2" 1%Z 2%Z)
    = (two_in_r1, []) ∧
  ("B", MLocationUpdate "r1" "A" 1%Z 2%Z)
    ∈ (location_update (Payload := string) two_in_r1 "A"
         (mkLocationData "r1" 1%Z 2%Z)).2.
Proof.
  split.
  - apply (proj1 (location_update_guarded (Payload := string) two_in_r1 "A"
                    (mkLocationData "r2" 1%Z 2%Z) two_in_r1_coherent)).
    left. vm_compute. discriminate.
  - apply (proj2 (location_update_guarded (Payload := string) two_in_r1 "A"
                    (mkLocationData "r1" 1%Z 2%Z) two_in_r1_coherent)
             {| users := ["A"; "B"]; locations := [] |}).
    + vm_compute. reflexivity.
    + vm_compute. reflexivity.
    + simpl. right. left.
    + done.
Defined.

Lemma disconnect_never_joined_witness :
  socket_roomId one_in_r1 "B" = None ∧
  rooms (disconnect (Payload := string) one_in_r1 "B").1 = rooms one_in_r1 ∧
  (disconnect (Payload := string) one_in_r1 "B").2 = [].
Proof.
  split; [vm_compute; reflexivity |].
  apply (disconnect_never_joined (Payload := string) one_in_r1 "B").
  vm_compute. reflexivity.
Defined.

Lemma webrtc_signal_from_is_sender_witness :
  webrtc_signal two_in_r1 "A" (mkSignalData "r1" (Some "B") None "sdp")
    = webrtc_signal two_in_r1 "A" (mkSignalData "r1" None None "sdp") ∧
  (webrtc_signal two_in_r1 "A" (mkSignalData "r1" (Some "B") None "sdp")).2
    = [("B", MWebrtcSignal "r1" "A" "sdp")].
Proof.
  split.
  - apply (proj1 (webrtc_signal_from_is_sender two_in_r1 "A" "r1"
                    (Some "B") None None "sdp")).
  - vm_compute. reflexivity.
Defined.

(** C4, at a concrete input: [B] switches from [r1], where [A] stays, to
    [r2]. The registry is updated as the leave procedure says, but the
    only delivery is [B]'s own [room-state]: [A] is sent no [user-left],
    and [B] stays in the Socket.IO room [r1]. A disconnect of [B] in the
    same state does send [user-left{B}] to [A]. *)
Theorem room_switch_sends_no_user_left :
  (step two_in_r1 (EJoinRoom "B" "r2" : @Event Z string)).2
    = [("B", MRoomState [] [])] ∧
  rooms (step two_in_r1 (EJoinRoom "B" "r2" : @Event Z string)).1
    = {[ "r1" := {| users := ["A"]; locations := [] |};
         "r2" := {| users := ["B"]; locations := [] |} ]} ∧
  adapter_members (step two_in_r1 (EJoinRoom "B" "r2" : @Event Z string)).1 "r1"
    = ["A"; "B"] ∧
  (step two_in_r1 (EDisconnect "B" : @Event Z string)).2
    = [("A", MUserLeft "B")].
Proof. vm_compute. split_and!; reflexivity. Qed.

(** *** The address printed at start-up *)

(** One entry of [os.networkInterfaces()[name]]. *)
Record Iface := mkIface {
  family : string;
  internal : bool;
  address : string
}.

(** [iface.family === 'IPv4' && !iface.internal]. *)
Definition external_ipv4 (i : Iface) : Prop :=
  family i = "IPv4" ∧ internal i = false.

#[export] Instance external_ipv4_dec i : Decision (external_ipv4 i).
Proof. unfold external_ipv4. apply _. Defined.

(** The inner loop of [getLocalIP] over the entries of one interface. *)
Fixpoint first_external (ifaces : list Iface) : option string :=
  match ifaces with
  | [] => None
  | i :: rest =>
      if decide (external_ipv4 i) then Some (address i) else first_external rest
  end.

(** [function getLocalIP()], applied to [os.networkInterfaces()] given as
    its keys in the order of [Object.keys], each with its entries. *)
Fixpoint getLocalIP (interfaces : list (string * list Iface)) : string :=
  match interfaces with
  | [] => "localhost"
  | (name, ifaces) :: rest =>
      match first_external ifaces with
      | Some a => a
      | None => getLocalIP rest
      end
  end.

Lemma first_external_filter ifaces :
  first_external ifaces = address <$> head (filter external_ipv4 ifaces).
Proof.
  induction ifaces as [| i rest IH]; [done |]. simpl. rewrite filter_cons.
  by case_decide.
Qed.

(** X10: [getLocalIP] returns the address of the first entry, in the
    order the interfaces and their entries are enumerated, that is IPv4
    and not internal; when no entry is (a host with loopback or IPv6
    only), it returns ["localhost"]. *)
Theorem getLocalIP_first_external (interfaces : list (string * list Iface)) :
  getLocalIP interfaces
  = default "localhost"
      (address <$> head (filter external_ipv4 (concat interfaces.*2))) ∧
  ((∀ i, i ∈ concat interfaces.*2 → ¬ external_ipv4 i) →
   getLocalIP interfaces = "localhost").
Proof.
  assert (Heq : getLocalIP interfaces
    = default "localhost"
        (address <$> head (filter external_ipv4 (concat interfaces.*2)))).
  { induction interfaces as [| [name ifaces] rest IH]; [done |]. simpl.
    rewrite filter_app, first_external_filter.
    destruct (filter external_ipv4 ifaces) as [| i l]; simpl; [exact IH | done]. }
  split; [exact Heq |]. intros Hnone. rewrite Heq.
  destruct (filter external_ipv4 (concat interfaces.*2)) as [| i l] eqn:Hf; [done |].
  assert (Hin : i ∈ filter external_ipv4 (concat interfaces.*2))
    by (rewrite Hf; left).
  apply list_elem_of_filter in Hin as [Hext Hin]. by apply Hnone in Hin.
Qed.

Lemma getLocalIP_first_external_witness :
  getLocalIP [("lo", [mkIface "IPv4" true "127.0.0.1"; mkIface "IPv6" true "::1"]);
              ("eth0", [mkIface "IPv6" false "fe80::1"])]
  = "localhost".
Proof.
  apply (proj2 (getLocalIP_first_external _)).
  intros i Hin [Hfam Hint]. simpl in Hin.
  repeat (apply elem_of_cons in Hin as [-> | Hin]; [done |]).
  by apply not_elem_of_nil in Hin.
Defined.

Example getLocalIP_skips_loopback :
  getLocalIP [("lo", [mkIface "IPv4" true "127.0.0.1"]);
              ("eth0", [mkIface "IPv6" false "fe80::1";
                        mkIface "IPv4" false "192.168.1.100"]);
              ("wlan0", [mkIface "IPv4" false "10.0.0.7"])]
  = "192.168.1.100".
Proof. reflexivity. Qed.

(** *** Witnesses on the scenarios *)

(** [A] and [B] in room [r1], and a third connection [C] in no room. *)
Definition two_in_r1_and_C : @State Z :=
  run init [EConnection "A"; EConnection "B"; EConnection "C";
            EJoinRoom "A" "r1"; EJoinRoom "B" "r1" : @Event Z string].

Lemma two_in_r1_reachable : reachable (Payload := string) two_in_r1.
Proof.
  apply (run_reachable init two_in_r1_events); [apply reachable_init |].
  vm_compute. split_and!; eauto; done.
Qed.


Lemma two_in_r1_and_C_reachable : reachable (Payload := string) two_in_r1_and_C.
Proof.
  apply (run_reachable init
           [EConnection "A"; EConnection "B"; EConnection "C";
            EJoinRoom "A" "r1"; EJoinRoom "B" "r1"]);
    [apply reachable_init |].
  vm_compute. split_and!; eauto; done.
Qed.

Lemma deliveries_reach_live_connections_witness :
  is_Some (sockets (step two_in_r1 (EDisconnect "B" : @Event Z string)).1 !! "A").
Proof.
  refine (proj1 (deliveries_reach_live_connections two_in_r1 (EDisconnect "B")
                   "A" (MUserLeft "B") two_in_r1_reachable _ _)).
  - vm_compute. eauto.
  - vm_compute. left.
Defined.

Lemma participant_iff_roomId_witness :
  "A" ∈ members (rooms two_in_r1) "r1" ↔ socket_roomId two_in_r1 "A" = Some "r1".
Proof.
  apply (proj1 (participant_iff_roomId (Payload := string)
                  two_in_r1 "A" "r1" "r1" two_in_r1_reachable)).
Defined.

Lemma broadcast_signal_guarded_witness :
  webrtc_signal two_in_r1 "A" (mkSignalData "r2" None None "sdp") = (two_in_r1, []) ∧
  ("B", MWebrtcSignal "r1" "A" "sdp")
    ∈ (webrtc_signal two_in_r1 "A" (mkSignalData "r1" None None "sdp")).2.
Proof.
  split.
  - apply (proj1 (broadcast_signal_guarded two_in_r1 "A"
                    (mkSignalData "r2" None None "sdp") two_in_r1_coherent)).
    vm_compute. discriminate.
  - apply (proj2 (broadcast_signal_guarded two_in_r1 "A"
                    (mkSignalData "r1" None None "sdp") two_in_r1_coherent)).
    + vm_compute. reflexivity.
    + reflexivity.
    + vm_compute. right. left.
    + done.
Defined.

Lemma targeted_signal_reaches_target_witness :
  ("C", MWebrtcSignal "r1" "A" "sdp")
    ∈ (webrtc_signal two_in_r1_and_C "A"
         (mkSignalData "r1" None (Some "C") "sdp")).2.
Proof.
  refine (proj1 (targeted_signal_reaches_target two_in_r1_and_C "A" "C"
                   (mkSignalData "r1" None (Some "C") "sdp")
                   two_in_r1_and_C_reachable _ _ _ _)).
  - vm_compute. reflexivity.
  - reflexivity.
  - done.
  - vm_compute. eauto.
Defined.

Lemma room_named_after_socket_overhears_witness :
  ("C", MWebrtcSignal "r1" "A" "sdp")
    ∈ (webrtc_signal (join_room (Payload := string) two_in_r1_and_C "C" "B").1 "A"
         (mkSignalData "r1" None (Some "B") "sdp")).2.
Proof.
  apply (proj1 (room_named_after_socket_overhears two_in_r1_and_C "C" "B" "A" "r1"
                  (mkSignalData "r1" None (Some "B") "sdp") eq_refl
                  ltac:(done))).
  vm_compute. reflexivity.
Defined.

Lemma disconnect_notifies_room_witness :
  ("A", MUserLeft "B") ∈ (disconnect (Payload := string) two_in_r1 "B").2.
Proof.
  apply (disconnect_notifies_room (Payload := string) two_in_r1 "B" "r1"
           two_in_r1_coherent).
  - vm_compute. reflexivity.
  - vm_compute. left.
  - done.
Defined.

Lemma switched_socket_still_hears_old_room_witness :
  ("B", MLocationUpdate "r1" "A" 1%Z 2%Z)
    ∈ (location_update (Payload := string)
         (join_room (Payload := string) two_in_r1 "B" "r2").1 "A"
         (mkLocationData "r1" 1%Z 2%Z)).2.
Proof.
  apply (proj2 (switched_socket_still_hears_old_room (Payload := string)
                  two_in_r1 "B" "A" "r1" "r2" (mkLocationData "r1" 1%Z 2%Z)
                  two_in_r1_coherent ltac:(vm_compute; reflexivity)
                  ltac:(done) ltac:(done) ltac:(vm_compute; left)
                  ltac:(done) eq_refl)).
Defined.

Lemma rejoin_same_room_drops_location_witness :
  location_of
    (rooms (join_room (Payload := string)
              (location_update (Payload := string) two_in_r1 "B"
                 (mkLocationData "r1" 1%Z 2%Z)).1 "B" "r1").1) "r1" "B"
  = None.
Proof.
  apply (rejoin_same_room_drops_location (Payload := string)
           (location_update (Payload := string) two_in_r1 "B"
              (mkLocationData "r1" 1%Z 2%Z)).1 "B" "r1").
  - apply location_update_coherent, two_in_r1_coherent.
  - vm_compute. reflexivity.
Defined.


End Server.

(** ** The session client ([src/client/main.js])

    Only the signaling part is modelled: the Socket.IO event handlers,
    [createPeerConnection] with its [onicecandidate] callback,
    [createOffer], [startLocalStream] and [joinRoom]. The DOM, the video elements and the map markers are left
    out. Every handler is taken as one atomic step: other handlers that
    could run at an [await] are not interleaved. *)

Module Client.

(** The browser's [RTCPeerConnection] as the client uses it. [None] is a
    rejected promise (or a thrown exception), which the handlers catch; a
    rejected call leaves the connection as it was. Every constructed
    connection is an object of its own: [pc_new n] is the [n]-th one the
    page constructs, so two new connections need not behave alike. *)
Class PeerTransport (PC Desc Cand Stream : Type) := {
  (** [new RTCPeerConnection({iceServers: [STUN_SERVER]})] *)
  pc_new : nat → PC;
  (** [localStream.getTracks().forEach(track => pc.addTrack(track, localStream))] *)
  pc_addTracks : Stream → PC → PC;
  pc_createOffer : PC → option Desc;
  pc_createAnswer : PC → option Desc;
  pc_setLocalDescription : Desc → PC → option PC;
  pc_setRemoteDescription : Desc → PC → option PC;
  pc_addIceCandidate : Cand → PC → option PC
}.

Section session.
Context {PC Desc Cand Stream : Type} `{!PeerTransport PC Desc Cand Stream}.

(** The [signal] field of a [webrtc-signal], by its [type]. *)
Inductive Signal :=
| SigOffer (d : Desc)
| SigAnswer (d : Desc)
| SigCandidate (c : Cand)
| SigOther.

(** What the client sends to the server with [socket.emit]. *)
Inductive Out :=
| EmitSignal (roomId : option string) (from to : string) (signal : Signal)
| EmitJoinRoom (roomId : string).

(** The module-level variables of [main.js] that signaling reads or
    writes, and [socket.id]. [transports] counts the [RTCPeerConnection]
    objects constructed so far. *)
Record State := mkState {
  socket_id : string;
  ROOM_ID : option string;
  isInRoom : bool;
  localStream : option Stream;
  peerConnections : gmap string PC;
  currentRoomUsers : list string;
  transports : nat
}.

(** The page after [initializeSocket] has connected as [self]. *)
Definition init (self : string) : State :=
  {| socket_id := self; ROOM_ID := None; isInRoom := false;
     localStream := None; peerConnections := ∅; currentRoomUsers := [];
     transports := 0 |}.

(** A call on the connection object stored under [userId] changes that
    object in place. *)
Definition set_peer (userId : string) (pc : PC) (c : State) : State :=
  {| socket_id := socket_id c; ROOM_ID := ROOM_ID c; isInRoom := isInRoom c;
     localStream := localStream c;
     peerConnections := <[userId := pc]> (peerConnections c);
     currentRoomUsers := currentRoomUsers c; transports := transports c |}.

Definition set_users (us : list string) (c : State) : State :=
  {| socket_id := socket_id c; ROOM_ID := ROOM_ID c; isInRoom := isInRoom c;
     localStream := localStream c; peerConnections := peerConnections c;
     currentRoomUsers := us; transports := transports c |}.

(** [async function createPeerConnection(userId)]. The callbacks it
    registers run later and are not part of this step: [onicecandidate]
    is [on_icecandidate] below; [ontrack] and the two state-change
    callbacks change the page and ask the transport for an ICE restart,
    they send nothing and touch none of the variables of the state. *)
Definition createPeerConnection (c : State) (userId : string) : State :=
  if decide (userId = socket_id c) then c
  else if decide (is_Some (peerConnections c !! userId)) then c
  else
    let pc := match localStream c with
              | Some st => pc_addTracks st (pc_new (transports c))
              | None => pc_new (transports c)
              end in
    {| socket_id := socket_id c; ROOM_ID := ROOM_ID c; isInRoom := isInRoom c;
       localStream := localStream c;
       peerConnections := <[userId := pc]> (peerConnections c);
       currentRoomUsers := currentRoomUsers c;
       transports := S (transports c) |}.

(** [async function createOffer(userId)]. *)
Definition createOffer (c : State) (userId : string) : State * list Out :=
  match peerConnections c !! userId, localStream c with
  | Some pc, Some _ =>
      match pc_createOffer pc with
      | None => (c, [])
      | Some offer =>
          match pc_setLocalDescription offer pc with
          | None => (c, [])
          | Some pc1 =>
              (set_peer userId pc1 c,
               [EmitSignal (ROOM_ID c) (socket_id c) userId (SigOffer offer)])
          end
      end
  | _, _ => (c, [])
  end.

(** The loop [for (const userId of ...) { await createPeerConnection(userId);
    await createOffer(userId); }]. *)
Fixpoint connect_all (c : State) (us : list string) : State * list Out :=
  match us with
  | [] => (c, [])
  | userId :: us' =>
      let r := createOffer (createPeerConnection c userId) userId in
      let r' := connect_all r.1 us' in
      (r'.1, r.2 ++ r'.2)
  end.

(** [socket.on('room-state', async (data) => ...)]; the [locations] of
    the snapshot go to the map only. The loop skips [socket.id]. *)
Definition on_room_state (c : State) (us : list string) : State * list Out :=
  let c1 := set_users (JS.Set_add (socket_id c) (foldl (λ l u, JS.Set_add u l) [] us)) c in
  match us, localStream c1 with
  | _ :: _, Some _ => connect_all c1 (filter (λ u, u ≠ socket_id c1) us)
  | _, _ => (c1, [])
  end.

(** [socket.on('user-joined', async ({ userId }) => ...)]. *)
Definition on_user_joined (c : State) (userId : string) : State * list Out :=
  let c1 := set_users (JS.Set_add userId (currentRoomUsers c)) c in
  match localStream c1 with
  | Some _ =>
      if decide (userId ≠ socket_id c1)
      then createOffer (createPeerConnection c1 userId) userId
      else (c1, [])
  | None => (c1, [])
  end.

(** [socket.on('user-left', ({ userId }) => ...)]. *)
Definition on_user_left (c : State) (userId : string) : State * list Out :=
  ({| socket_id := socket_id c; ROOM_ID := ROOM_ID c; isInRoom := isInRoom c;
      localStream := localStream c;
      peerConnections := delete userId (peerConnections c);
      currentRoomUsers := JS.Set_delete userId (currentRoomUsers c);
      transports := transports c |}, []).

(** [socket.on('webrtc-signal', async (data) => ...)]. *)
Definition on_webrtc_signal (c : State) (from : string) (signal : Signal)
    : State * list Out :=
  let c1 := match peerConnections c !! from, localStream c with
            | None, Some _ => createPeerConnection c from
            | _, _ => c
            end in
  match peerConnections c1 !! from with
  | None => (c1, [])
  | Some pc =>
      match signal with
      | SigOffer d =>
          match pc_setRemoteDescription d pc with
          | None => (c1, [])
          | Some pc1 =>
              match pc_createAnswer pc1 with
              | None => (set_peer from pc1 c1, [])
              | Some answer =>
                  match pc_setLocalDescription answer pc1 with
                  | None => (set_peer from pc1 c1, [])
                  | Some pc2 =>
                      (set_peer from pc2 c1,
                       [EmitSignal (ROOM_ID c1) (socket_id c1) from
                          (SigAnswer answer)])
                  end
              end
          end
      | SigAnswer d =>
          match pc_setRemoteDescription d pc with
          | None => (c1, [])
          | Some pc1 => (set_peer from pc1 c1, [])
          end
      | SigCandidate cand =>
          match pc_addIceCandidate cand pc with
          | None => (c1, [])
          | Some pc1 => (set_peer from pc1 c1, [])
          end
      | SigOther => (c1, [])
      end
  end.

(** How the browser answers the media request of [startLocalStream]. *)
Inductive Media :=
| ModernGranted (st : Stream)
| ModernDenied
| LegacyGranted (st : Stream)
| LegacyDenied
| Unsupported.

Definition set_localStream (st : Stream) (c : State) : State :=
  {| socket_id := socket_id c; ROOM_ID := ROOM_ID c; isInRoom := isInRoom c;
     localStream := Some st; peerConnections := peerConnections c;
     currentRoomUsers := currentRoomUsers c; transports := transports c |}.

(** [async function startLocalStream()]. With
    [navigator.mediaDevices.getUserMedia] the stream is stored and the
    other users of the room are called. Without it the function returns
    the promise of the prefixed [getUserMedia], whose success callback
    stores the stream and resolves. *)
Definition startLocalStream (c : State) (m : Media) : State * list Out :=
  match m with
  | ModernGranted st =>
      let c1 := set_localStream st c in
      if isInRoom c1 && bool_decide (1 < length (currentRoomUsers c1))
      then connect_all c1 (filter (λ id, id ≠ socket_id c1) (currentRoomUsers c1))
      else (c1, [])
  | LegacyGranted st => (set_localStream st c, [])
  | ModernDenied | LegacyDenied | Unsupported => (c, [])
  end.

(** [function joinRoom(roomName)], on a connected socket.
    [String.prototype.trim] is the parameter [trim]. *)
Definition joinRoom (trim : string → string) (c : State) (roomName : string)
    : State * list Out :=
  if decide (roomName = "" ∨ trim roomName = "") then (c, [])
  else
    let leaving := isInRoom c && JS.truthy (ROOM_ID c) in
    ({| socket_id := socket_id c; ROOM_ID := Some (trim roomName);
        isInRoom := true; localStream := localStream c;
        peerConnections := if leaving then ∅ else peerConnections c;
        currentRoomUsers := if leaving then [] else currentRoomUsers c;
        transports := transports c |},
     [EmitJoinRoom (trim roomName)]).

(** [peerConnection.onicecandidate = (event) => { if (event.candidate)
    socket.emit('webrtc-signal', { roomId: ROOM_ID, from: socket.id,
    to: userId, signal: { type: 'candidate', candidate: event.candidate } }) }],
    the callback [createPeerConnection] registers on the connection of
    [userId]. The browser runs it on an open connection only, that is
    while the connection is the link stored under [userId] (a link is
    closed when it is taken out of [peerConnections]); [None] is the null
    candidate that ends gathering. [ROOM_ID] and [socket.id] are read
    when the callback runs. *)
Definition on_icecandidate (c : State) (userId : string)
    (candidate : option Cand) : State * list Out :=
  match peerConnections c !! userId, candidate with
  | Some _, Some cand =>
      (c, [EmitSignal (ROOM_ID c) (socket_id c) userId (SigCandidate cand)])
  | _, _ => (c, [])
  end.

(** What can happen to the client. *)
Inductive Event :=
| ERoomState (us : list string)
| EUserJoined (userId : string)
| EUserLeft (userId : string)
| EWebrtcSignal (from : string) (signal : Signal)
| EStartLocalStream (m : Media)
| EJoinRoom (roomName : string)
| EIceCandidate (userId : string) (candidate : option Cand).

Definition step (trim : string → string) (c : State) (ev : Event)
    : State * list Out :=
  match ev with
  | ERoomState us => on_room_state c us
  | EUserJoined userId => on_user_joined c userId
  | EUserLeft userId => on_user_left c userId
  | EWebrtcSignal from signal => on_webrtc_signal c from signal
  | EStartLocalStream m => startLocalStream c m
  | EJoinRoom roomName => joinRoom trim c roomName
  | EIceCandidate userId candidate => on_icecandidate c userId candidate
  end.

(** Client states reachable from a fresh page. *)
Inductive reachable (trim : string → string) : State → Prop :=
| reachable_init self : reachable trim (init self)
| reachable_step c ev : reachable trim c → reachable trim (step trim c ev).1.

(** The transport answers every offer request and accepts the offer it
    produced as local description. *)
Definition responsive : Prop :=
  ∀ pc : PC, ∃ offer pc1,
    pc_createOffer pc = Some offer ∧ pc_setLocalDescription offer pc = Some pc1.

(** The local id is not a key of [peerConnections]. *)
Definition no_self (c : State) : Prop :=
  peerConnections c !! socket_id c = None.


(** The transport behind [pc] answers an offer request and accepts the
    offer as local description. *)
Definition offers (pc : PC) : Prop :=
  ∃ offer pc1,
    pc_createOffer pc = Some offer ∧ pc_setLocalDescription offer pc = Some pc1.

(** *** Creating peer links *)

Lemma createPeerConnection_frame c userId :
  socket_id (createPeerConnection c userId) = socket_id c ∧
  ROOM_ID (createPeerConnection c userId) = ROOM_ID c ∧
  localStream (createPeerConnection c userId) = localStream c.
Proof. unfold createPeerConnection. repeat case_decide; done. Qed.

Lemma createPeerConnection_peers c userId v :
  is_Some (peerConnections (createPeerConnection c userId) !! v) ↔
  is_Some (peerConnections c !! v) ∨ (v = userId ∧ userId ≠ socket_id c).
Proof.
  unfold createPeerConnection. case_decide as Hself; [ids_solver |].
  case_decide as Hhas; [ids_solver |]. simpl.
  destruct (decide (v = userId)) as [-> | Hne].
  - rewrite lookup_insert_eq. ids_solver.
  - rewrite lookup_insert_ne by done. ids_solver.
Qed.

Lemma createOffer_frame c userId :
  socket_id (createOffer c userId).1 = socket_id c ∧
  ROOM_ID (createOffer c userId).1 = ROOM_ID c ∧
  localStream (createOffer c userId).1 = localStream c.
Proof. unfold createOffer. repeat case_match; done. Qed.

Lemma createOffer_peers c userId v :
  is_Some (peerConnections (createOffer c userId).1 !! v) ↔
  is_Some (peerConnections c !! v).
Proof.
  unfold createOffer. destruct (peerConnections c !! userId) eqn:Hpc; [| done].
  repeat case_match; try done. simpl.
  destruct (decide (v = userId)) as [-> | Hne].
  - rewrite lookup_insert_eq, Hpc. ids_solver.
  - by rewrite lookup_insert_ne.
Qed.

Lemma connect_all_frame c us :
  socket_id (connect_all c us).1 = socket_id c ∧
  ROOM_ID (connect_all c us).1 = ROOM_ID c ∧
  localStream (connect_all c us).1 = localStream c.
Proof.
  revert c. induction us as [| u us IH]; intros c; [done |]. simpl.
  destruct (IH (createOffer (createPeerConnection c u) u).1) as (-> & -> & ->).
  destruct (createOffer_frame (createPeerConnection c u) u) as (-> & -> & ->).
  apply createPeerConnection_frame.
Qed.

Lemma connect_all_peers c us v :
  is_Some (peerConnections (connect_all c us).1 !! v) ↔
  is_Some (peerConnections c !! v) ∨ (v ∈ us ∧ v ≠ socket_id c).
Proof.
  revert c. induction us as [| u us IH]; intros c; simpl.
  - rewrite elem_of_nil. ids_solver.
  - rewrite IH, createOffer_peers, createPeerConnection_peers.
    destruct (createOffer_frame (createPeerConnection c u) u) as (-> & _).
    destruct (createPeerConnection_frame c u) as (-> & _).
    rewrite elem_of_cons. ids_solver.
Qed.

Lemma createOffer_offers c userId :
  responsive → is_Some (localStream c) → is_Some (peerConnections c !! userId) →
  ∃ offer, (createOffer c userId).2
           = [EmitSignal (ROOM_ID c) (socket_id c) userId (SigOffer offer)].
Proof.
  intros Hresp [st Hst] [pc Hpc]. unfold createOffer. rewrite Hpc, Hst.
  destruct (Hresp pc) as (offer & pc1 & -> & ->). eauto.
Qed.

Lemma connect_all_offers c us u :
  responsive → is_Some (localStream c) → u ∈ us → u ≠ socket_id c →
  ∃ offer, EmitSignal (ROOM_ID c) (socket_id c) u (SigOffer offer)
             ∈ (connect_all c us).2.
Proof.
  intros Hresp. revert c. induction us as [| v us IH]; intros c Hst Hin Hne.
  - by apply elem_of_nil in Hin.
  - simpl. destruct (createPeerConnection_frame c v) as (Hid1 & Hroom1 & Hst1).
    destruct (createOffer_frame (createPeerConnection c v) v)
      as (Hid2 & Hroom2 & Hst2).
    destruct (decide (u = v)) as [-> | Huv].
    + destruct (createOffer_offers (createPeerConnection c v) v) as [offer Hout].
      * done.
      * by rewrite Hst1.
      * apply createPeerConnection_peers. auto.
      * exists offer. apply elem_of_app. left. rewrite Hout, Hroom1, Hid1.
        by apply list_elem_of_singleton.
    + apply elem_of_cons in Hin as [-> | Hin]; [done |].
      destruct (IH (createOffer (createPeerConnection c v) v).1) as [offer Hout].
      * by rewrite Hst2, Hst1.
      * done.
      * by rewrite Hid2, Hid1.
      * exists offer. apply elem_of_app. right.
        by rewrite Hroom2, Hroom1, Hid2, Hid1 in Hout.
Qed.

(** With [navigator.mediaDevices.getUserMedia], a client that is in a
    room and lists itself among the room's users gets a peer link to
    every other listed user and sends each of them an offer. *)
Lemma startLocalStream_modern_calls_everyone c st u :
  responsive → isInRoom c = true →
  socket_id c ∈ currentRoomUsers c → u ∈ currentRoomUsers c → u ≠ socket_id c →
  is_Some (peerConnections (startLocalStream c (ModernGranted st)).1 !! u) ∧
  ∃ offer, EmitSignal (ROOM_ID c) (socket_id c) u (SigOffer offer)
             ∈ (startLocalStream c (ModernGranted st)).2.
Proof.
  intros Hresp Hroom Hself Hu Hne. unfold startLocalStream. simpl.
  rewrite Hroom. simpl.
  assert (Hlen : 1 < length (currentRoomUsers c)).
  { destruct (currentRoomUsers c) as [| a [| b l]]; simpl; [| | lia].
    - by apply elem_of_nil in Hu.
    - apply list_elem_of_singleton in Hu, Hself. congruence. }
  rewrite bool_decide_eq_true_2 by done.
  assert (Hin : u ∈ filter (λ id, id ≠ socket_id c) (currentRoomUsers c))
    by (by apply list_elem_of_filter).
  split.
  - apply connect_all_peers. right. done.
  - by apply (connect_all_offers (set_localStream st c)).
Qed.

(** *** The local id is never a key of [peerConnections] *)

Lemma no_self_peers c c' :
  socket_id c' = socket_id c →
  (is_Some (peerConnections c' !! socket_id c) →
   is_Some (peerConnections c !! socket_id c) ∨ False) →
  no_self c → no_self c'.
Proof.
  unfold no_self. intros -> Himp Hc. apply eq_None_not_Some. intros Hsome.
  destruct (Himp Hsome) as [[pc Hpc] | []]. congruence.
Qed.

Lemma createPeerConnection_no_self c userId :
  no_self c → no_self (createPeerConnection c userId).
Proof.
  apply no_self_peers; [apply createPeerConnection_frame |].
  rewrite createPeerConnection_peers. ids_solver.
Qed.

Lemma createOffer_no_self c userId :
  no_self c → no_self (createOffer c userId).1.
Proof.
  apply no_self_peers; [apply createOffer_frame |].
  rewrite createOffer_peers. ids_solver.
Qed.

Lemma connect_all_no_self c us : no_self c → no_self (connect_all c us).1.
Proof.
  apply no_self_peers; [apply connect_all_frame |].
  rewrite connect_all_peers. ids_solver.
Qed.

Lemma on_webrtc_signal_no_self c from signal :
  no_self c → no_self (on_webrtc_signal c from signal).1.
Proof.
  intros Hc. unfold on_webrtc_signal.
  set (c1 := match peerConnections c !! from with
             | Some _ => c
             | None => match localStream c with
                       | Some _ => createPeerConnection c from
                       | None => c
                       end
             end).
  assert (Hc1 : no_self c1).
  { unfold c1. repeat case_match; try done.
    by apply createPeerConnection_no_self. }
  destruct (peerConnections c1 !! from) as [pc |] eqn:Hpc; [| done].
  assert (Hset : ∀ pc', no_self (set_peer from pc' c1)).
  { intros pc'. unfold no_self in *. simpl.
    rewrite lookup_insert_ne; [done |]. intros Heq. rewrite Heq in Hpc.
    congruence. }
  destruct signal as [d | d | cand |]; simpl.
  - destruct (pc_setRemoteDescription d pc) as [pc1 |]; [| done].
    destruct (pc_createAnswer pc1) as [answer |]; [| apply Hset].
    destruct (pc_setLocalDescription answer pc1); apply Hset.
  - destruct (pc_setRemoteDescription d pc); [apply Hset | done].
  - destruct (pc_addIceCandidate cand pc); [apply Hset | done].
  - done.
Qed.

Lemma step_no_self trim c ev : no_self c → no_self (step trim c ev).1.
Proof.
  intros Hc.
  destruct ev as [us | u | u | from sig | m | roomName | u cand]; cbn [step].
  - unfold on_room_state. repeat case_match; try done.
    by apply connect_all_no_self.
  - unfold on_user_joined. repeat case_match; try done.
    by apply createOffer_no_self, createPeerConnection_no_self.
  - unfold no_self in *. simpl.
    destruct (decide (u = socket_id c)) as [-> | Hne].
    + by rewrite lookup_delete_eq.
    + by rewrite lookup_delete_ne.
  - by apply on_webrtc_signal_no_self.
  - unfold startLocalStream. repeat case_match; try done.
    by apply connect_all_no_self.
  - unfold joinRoom, no_self in *. repeat case_match; simpl; try done.
  - unfold on_icecandidate. repeat case_match; done.
Qed.

Lemma reachable_no_self trim c : reachable trim c → no_self c.
Proof.
  induction 1 as [self | c ev _ IH].
  - unfold no_self. simpl. apply lookup_empty.
  - by apply step_no_self.
Qed.

(** C9: [createPeerConnection] for a user that already has a link, or
    for the local id, returns the state as it was (same [peerConnections],
    no transport constructed); it never adds the local id, and no
    reachable client state has the local id as a key of
    [peerConnections]. *)
Theorem createPeerConnection_idempotent_no_self (c : State) (userId : string) :
  (is_Some (peerConnections c !! userId) ∨ userId = socket_id c →
   createPeerConnection c userId = c) ∧
  (peerConnections c !! socket_id c = None →
   peerConnections (createPeerConnection c userId) !! socket_id c = None) ∧
  (∀ trim, reachable trim c → peerConnections c !! socket_id c = None).
Proof.
  split_and!.
  - intros [Hhas | ->]; unfold createPeerConnection.
    + case_decide; [done |]. by rewrite decide_True.
    + by rewrite decide_True.
  - intros Hc. pose proof (createPeerConnection_no_self c userId Hc) as Hc'.
    unfold no_self in Hc'.
    by destruct (createPeerConnection_frame c userId) as (<- & _).
  - intros trim. apply reachable_no_self.
Qed.

(** *** Incoming signals *)

(** C7, as amended: an incoming offer from a user with a peer link is
    handed to the transport as remote description whatever the link's
    state; there is no state check and no rollback. When the transport
    accepts it, creates an answer and accepts the answer as local
    description, the link holds the resulting connection and the answer
    is the one message sent, addressed to the offering user with the
    client's room and id. When the transport rejects the offer, the state
    is unchanged and nothing is sent; when it rejects one of the two
    later calls, nothing is sent and the link keeps the remote
    description. No other link and no other variable changes. *)
Theorem offer_answered_when_accepted (c : State) (from : string) (pc : PC)
    (d : Desc) :
  peerConnections c !! from = Some pc →
  (∀ pc1 answer pc2,
     pc_setRemoteDescription d pc = Some pc1 →
     pc_createAnswer pc1 = Some answer →
     pc_setLocalDescription answer pc1 = Some pc2 →
     peerConnections (on_webrtc_signal c from (SigOffer d)).1 !! from = Some pc2 ∧
     (on_webrtc_signal c from (SigOffer d)).2
       = [EmitSignal (ROOM_ID c) (socket_id c) from (SigAnswer answer)]) ∧
  (pc_setRemoteDescription d pc = None →
   on_webrtc_signal c from (SigOffer d) = (c, [])) ∧
  (∀ pc1,
     pc_setRemoteDescription d pc = Some pc1 →
     pc_createAnswer pc1 = None ∨
       (∃ answer, pc_createAnswer pc1 = Some answer ∧
                  pc_setLocalDescription answer pc1 = None) →
     peerConnections (on_webrtc_signal c from (SigOffer d)).1 !! from = Some pc1 ∧
     (on_webrtc_signal c from (SigOffer d)).2 = []) ∧
  (∀ v, v ≠ from →
     peerConnections (on_webrtc_signal c from (SigOffer d)).1 !! v
     = peerConnections c !! v) ∧
  socket_id (on_webrtc_signal c from (SigOffer d)).1 = socket_id c ∧
  ROOM_ID (on_webrtc_signal c from (SigOffer d)).1 = ROOM_ID c ∧
  isInRoom (on_webrtc_signal c from (SigOffer d)).1 = isInRoom c ∧
  localStream (on_webrtc_signal c from (SigOffer d)).1 = localStream c ∧
  currentRoomUsers (on_webrtc_signal c from (SigOffer d)).1 = currentRoomUsers c ∧
  transports (on_webrtc_signal c from (SigOffer d)).1 = transports c.
Proof.
  intros Hpc.
  assert (Hrun : on_webrtc_signal c from (SigOffer d)
    = match pc_setRemoteDescription d pc with
      | None => (c, [])
      | Some pc1 =>
          match pc_createAnswer pc1 with
          | None => (set_peer from pc1 c, [])
          | Some answer =>
              match pc_setLocalDescription answer pc1 with
              | None => (set_peer from pc1 c, [])
              | Some pc2 =>
                  (set_peer from pc2 c,
                   [EmitSignal (ROOM_ID c) (socket_id c) from (SigAnswer answer)])
              end
          end
      end).
  { unfold on_webrtc_signal. rewrite Hpc. by rewrite Hpc. }
  rewrite Hrun. split_and!.
  - intros pc1 answer pc2 -> -> ->. simpl. by rewrite lookup_insert_eq.
  - by intros ->.
  - intros pc1 -> [-> | (answer & -> & ->)]; simpl; by rewrite lookup_insert_eq.
  - intros v Hne. repeat case_match; simpl; try done;
      by rewrite lookup_insert_ne.
  - repeat case_match; done.
  - repeat case_match; done.
  - repeat case_match; done.
  - repeat case_match; done.
  - repeat case_match; done.
  - repeat case_match; done.
Qed.

(** A candidate the transport rejects is kept nowhere: the handler
    returns the state it was given and sends nothing. *)
Lemma rejected_candidate_leaves_no_trace c from pc cand :
  peerConnections c !! from = Some pc →
  pc_addIceCandidate cand pc = None →
  on_webrtc_signal c from (SigCandidate cand) = (c, []).
Proof.
  intros Hpc Hrej. unfold on_webrtc_signal. rewrite Hpc.
  by rewrite Hpc, Hrej.
Qed.

(** *** The room view and the links, handler by handler *)

Lemma createPeerConnection_view c userId :
  currentRoomUsers (createPeerConnection c userId) = currentRoomUsers c ∧
  isInRoom (createPeerConnection c userId) = isInRoom c.
Proof. unfold createPeerConnection. repeat case_decide; done. Qed.

Lemma createOffer_view c userId :
  currentRoomUsers (createOffer c userId).1 = currentRoomUsers c ∧
  isInRoom (createOffer c userId).1 = isInRoom c.
Proof. unfold createOffer. repeat case_match; done. Qed.

Lemma connect_all_view c us :
  currentRoomUsers (connect_all c us).1 = currentRoomUsers c ∧
  isInRoom (connect_all c us).1 = isInRoom c.
Proof.
  revert c. induction us as [| u us IH]; intros c; [done |]. simpl.
  destruct (IH (createOffer (createPeerConnection c u) u).1) as (-> & ->).
  destruct (createOffer_view (createPeerConnection c u) u) as (-> & ->).
  apply createPeerConnection_view.
Qed.



(** X11: a [room-state] snapshot replaces the room view: afterwards the
    view holds the local id and the users of the snapshot, nothing else,
    and nothing twice, whatever the view was before. *)
Theorem room_state_replaces_view (c : State) (us : list string) :
  (∀ u, u ∈ currentRoomUsers (on_room_state c us).1 ↔ u = socket_id c ∨ u ∈ us) ∧
  NoDup (currentRoomUsers (on_room_state c us).1).
Proof.
  assert (Hview : currentRoomUsers (on_room_state c us).1
    = JS.Set_add (socket_id c) (foldl (λ l u, JS.Set_add u l) [] us)).
  { unfold on_room_state. simpl.
    destruct us as [| u0 us'], (localStream c); try done.
    by rewrite (proj1 (connect_all_view _ _)). }
  rewrite Hview. split.
  - intros u. rewrite JS.elem_of_Set_add, JS.elem_of_foldl_Set_add, elem_of_nil.
    tauto.
  - apply JS.NoDup_Set_add, JS.NoDup_foldl_Set_add, NoDup_nil_2.
Qed.

(** X12: on a [room-state] snapshot a client whose camera is off creates
    no link and sends nothing; a client whose camera is on ends with a
    link to every user of the snapshot other than itself and sends each
    of them an offer. *)
Theorem room_state_calls_everyone (c : State) (us : list string) :
  (localStream c = None →
   (on_room_state c us).2 = [] ∧
   peerConnections (on_room_state c us).1 = peerConnections c) ∧
  (responsive → is_Some (localStream c) →
   ∀ u, u ∈ us → u ≠ socket_id c →
     is_Some (peerConnections (on_room_state c us).1 !! u) ∧
     ∃ offer, EmitSignal (ROOM_ID c) (socket_id c) u (SigOffer offer)
                ∈ (on_room_state c us).2).
Proof.
  split.
  - intros Hoff. unfold on_room_state. simpl. rewrite Hoff.
    by destruct us.
  - intros Hresp [st Hst] u Hu Hne. unfold on_room_state. simpl. rewrite Hst.
    destruct us as [| u0 us']; [by apply elem_of_nil in Hu |].
    set (c1 := set_users _ c).
    assert (Hin : u ∈ filter (λ v, v ≠ socket_id c) (u0 :: us'))
      by (by apply list_elem_of_filter).
    split.
    + apply connect_all_peers. right. done.
    + apply (connect_all_offers c1);
        [done | unfold c1; simpl; rewrite Hst; eauto | done | done].
Qed.

(** X13: on [user-joined{u}] for another user, a client whose camera is
    on creates the link and sends [u] an offer at once. A client whose
    camera is off only notes [u] in the room view; when the camera is
    then started through [navigator.mediaDevices], the link to [u] is
    created and the offer is sent. *)
Theorem user_joined_offer_now_or_deferred (c : State) (u : string) (st : Stream) :
  responsive → u ≠ socket_id c →
  (is_Some (localStream c) →
   is_Some (peerConnections (on_user_joined c u).1 !! u) ∧
   ∃ offer, (on_user_joined c u).2
            = [EmitSignal (ROOM_ID c) (socket_id c) u (SigOffer offer)]) ∧
  (localStream c = None → isInRoom c = true → socket_id c ∈ currentRoomUsers c →
   (on_user_joined c u).2 = [] ∧
   peerConnections (on_user_joined c u).1 = peerConnections c ∧
   u ∈ currentRoomUsers (on_user_joined c u).1 ∧
   is_Some (peerConnections
              (startLocalStream (on_user_joined c u).1 (ModernGranted st)).1 !! u) ∧
   ∃ offer, EmitSignal (ROOM_ID c) (socket_id c) u (SigOffer offer)
              ∈ (startLocalStream (on_user_joined c u).1 (ModernGranted st)).2).
Proof.
  intros Hresp Hne. split.
  - intros [st' Hst]. unfold on_user_joined. simpl. rewrite Hst.
    rewrite decide_True by done.
    set (c1 := set_users _ c).
    assert (Hlink : is_Some (peerConnections (createPeerConnection c1 u) !! u))
      by (apply createPeerConnection_peers; auto).
    split.
    + by apply createOffer_peers.
    + destruct (createOffer_offers (createPeerConnection c1 u) u) as [offer Hout].
      * done.
      * destruct (createPeerConnection_frame c1 u) as (_ & _ & ->). simpl.
        by rewrite Hst.
      * done.
      * exists offer. rewrite Hout.
        by destruct (createPeerConnection_frame c1 u) as (-> & -> & _).
  - intros Hoff Hroom Hself.
    assert (Hstep : on_user_joined c u
                    = (set_users (JS.Set_add u (currentRoomUsers c)) c, [])).
    { unfold on_user_joined. simpl. by rewrite Hoff. }
    rewrite Hstep. cbn [fst snd]. split_and!; [done | done | | |].
    + simpl. apply JS.elem_of_Set_add. auto.
    + apply startLocalStream_modern_calls_everyone; simpl; try done;
        apply JS.elem_of_Set_add; auto.
    + apply (startLocalStream_modern_calls_everyone
               (set_users (JS.Set_add u (currentRoomUsers c)) c) st u);
        simpl; try done; apply JS.elem_of_Set_add; auto.
Qed.

(** X14: a signal from a user without a peer link is dropped without a
    trace when the camera is off, and so is a signal that claims to come
    from the local id: the state is unchanged and nothing is sent. In
    particular an offer that arrives before the camera is started is
    never answered. *)
Theorem signal_without_link_is_ignored (c : State) (from : string)
    (signal : Signal) :
  peerConnections c !! from = None →
  localStream c = None ∨ from = socket_id c →
  on_webrtc_signal c from signal = (c, []).
Proof.
  intros Hlink Hcase. unfold on_webrtc_signal. rewrite Hlink.
  destruct Hcase as [-> | ->].
  - by rewrite Hlink.
  - assert (Hsame : createPeerConnection c (socket_id c) = c)
      by (unfold createPeerConnection; by rewrite decide_True).
    rewrite Hsame. destruct (localStream c); by rewrite Hlink.
Qed.

Lemma on_webrtc_signal_peers c from signal v :
  is_Some (peerConnections (on_webrtc_signal c from signal).1 !! v) ↔
  is_Some (peerConnections c !! v) ∨
  (v = from ∧ from ≠ socket_id c ∧ is_Some (localStream c)).
Proof.
  unfold on_webrtc_signal.
  set (c1 := match peerConnections c !! from with
             | Some _ => c
             | None => match localStream c with
                       | Some _ => createPeerConnection c from
                       | None => c
                       end
             end).
  assert (Hc1 : is_Some (peerConnections c1 !! v) ↔
                is_Some (peerConnections c !! v) ∨
                (v = from ∧ from ≠ socket_id c ∧ is_Some (localStream c))).
  { unfold c1. destruct (peerConnections c !! from) as [pc |] eqn:Hpc.
    - split; [auto |]. intros [? | (-> & _ & _)]; [done | by rewrite Hpc].
    - destruct (localStream c) as [st |].
      + rewrite createPeerConnection_peers. split.
        * intros [? | [-> ?]]; [by left | right; eauto].
        * intros [? | (-> & ? & _)]; auto.
      + split; [auto |]. intros [? | (_ & _ & [? ?])]; done. }
  destruct (peerConnections c1 !! from) as [pc |] eqn:Hpc; [| done].
  assert (Hset : ∀ pc', is_Some (peerConnections (set_peer from pc' c1) !! v) ↔
                        is_Some (peerConnections c1 !! v)).
  { intros pc'. simpl. destruct (decide (v = from)) as [-> | Hne].
    - rewrite lookup_insert_eq, Hpc. split; eauto.
    - by rewrite lookup_insert_ne. }
  destruct signal as [d | d | cand |].
  - destruct (pc_setRemoteDescription d pc) as [pc1 |]; [| done].
    destruct (pc_createAnswer pc1) as [answer |];
      [| cbn [fst]; by rewrite Hset].
    destruct (pc_setLocalDescription answer pc1); cbn [fst]; by rewrite Hset.
  - destruct (pc_setRemoteDescription d pc); [cbn [fst]; by rewrite Hset | done].
  - destruct (pc_addIceCandidate cand pc); [cbn [fst]; by rewrite Hset | done].
  - done.
Qed.

Lemma on_webrtc_signal_view c from signal :
  currentRoomUsers (on_webrtc_signal c from signal).1 = currentRoomUsers c.
Proof.
  unfold on_webrtc_signal.
  assert (Hc1 : currentRoomUsers
            match peerConnections c !! from with
            | Some _ => c
            | None => match localStream c with
                      | Some _ => createPeerConnection c from
                      | None => c
                      end
            end = currentRoomUsers c).
  { repeat case_match; try done. apply createPeerConnection_view. }
  repeat case_match; simpl; done.
Qed.

(** X15: with the camera on, a signal of any kind from any other user
    leaves a peer link to that user, whether or not the user is in the
    room view. So a signal from [u] that arrives after [user-left{u}]
    brings back the link that [user-left] removed, while [u] stays out
    of the view. *)
Theorem signal_revives_link (c : State) (u : string) (signal : Signal) :
  is_Some (localStream c) → u ≠ socket_id c →
  is_Some (peerConnections (on_webrtc_signal c u signal).1 !! u) ∧
  peerConnections (on_user_left c u).1 !! u = None ∧
  is_Some (peerConnections
             (on_webrtc_signal (on_user_left c u).1 u signal).1 !! u) ∧
  (u ∉ currentRoomUsers (on_webrtc_signal (on_user_left c u).1 u signal).1).
Proof.
  intros Hst Hne. split_and!.
  - apply on_webrtc_signal_peers. auto.
  - simpl. apply lookup_delete_eq.
  - apply on_webrtc_signal_peers. right. done.
  - rewrite on_webrtc_signal_view. simpl.
    intros [? _]%JS.elem_of_Set_delete. done.
Qed.




(** X17: [user-left{u}] removes the link to [u] and takes [u] out of the
    room view, sends nothing, and touches no other user; a second
    [user-left{u}] changes nothing more. *)
Theorem user_left_forgets_peer (c : State) (u : string) :
  (on_user_left c u).2 = [] ∧
  peerConnections (on_user_left c u).1 !! u = None ∧
  (u ∉ currentRoomUsers (on_user_left c u).1) ∧
  (∀ v, v ≠ u →
     peerConnections (on_user_left c u).1 !! v = peerConnections c !! v ∧
     (v ∈ currentRoomUsers (on_user_left c u).1 ↔ v ∈ currentRoomUsers c)) ∧
  on_user_left (on_user_left c u).1 u = on_user_left c u.
Proof.
  split_and!.
  - done.
  - simpl. apply lookup_delete_eq.
  - simpl. intros [? _]%JS.elem_of_Set_delete. done.
  - intros v Hne. simpl. rewrite lookup_delete_ne by done.
    rewrite JS.elem_of_Set_delete. tauto.
  - unfold on_user_left. simpl. rewrite JS.Set_delete_idemp.
    by rewrite delete_delete_eq.
Qed.


(** *** One failing transport does not stop the others *)

Lemma createPeerConnection_other c u v :
  v ≠ u →
  peerConnections (createPeerConnection c u) !! v = peerConnections c !! v.
Proof.
  intros Hne. unfold createPeerConnection. repeat case_decide; try done.
  simpl. by rewrite lookup_insert_ne.
Qed.

Lemma createOffer_other c u v :
  v ≠ u → peerConnections (createOffer c u).1 !! v = peerConnections c !! v.
Proof.
  intros Hne. unfold createOffer. repeat case_match; try done.
  simpl. by rewrite lookup_insert_ne.
Qed.

Lemma connect_all_other c us v :
  v ∉ us →
  peerConnections (connect_all c us).1 !! v = peerConnections c !! v.
Proof.
  revert c. induction us as [| u us IH]; intros c Hv; [done |].
  apply not_elem_of_cons in Hv as [Hne Hv]. simpl.
  rewrite IH by done. rewrite createOffer_other by done.
  by apply createPeerConnection_other.
Qed.

Lemma createOffer_sent_or_rejected c u pc :
  is_Some (localStream c) → peerConnections c !! u = Some pc →
  (∃ offer, (createOffer c u).2
            = [EmitSignal (ROOM_ID c) (socket_id c) u (SigOffer offer)]) ∨
  (createOffer c u = (c, []) ∧ ¬ offers pc).
Proof.
  intros [st Hst] Hpc. unfold createOffer. rewrite Hpc, Hst.
  destruct (pc_createOffer pc) as [offer |] eqn:Hoffer.
  - destruct (pc_setLocalDescription offer pc) as [pc1 |] eqn:Hlocal.
    + left. eauto.
    + right. split; [done |]. intros (offer' & pc1 & Ho & Hl). congruence.
  - right. split; [done |]. intros (offer' & pc1 & Ho & Hl). congruence.
Qed.

(** X19: in the loop over the users to call, a listed user other than
    the client itself misses its offer only when the transport of its
    own link rejects [createOffer] or [setLocalDescription]: either the
    offer to that user is sent, or the link the user ends with is one
    whose transport rejects. A rejection on one user's link therefore
    costs no other user its offer. *)
Theorem connect_all_failure_is_contained (c : State) (us : list string)
    (u : string) :
  is_Some (localStream c) → u ∈ us → u ≠ socket_id c →
  (∃ offer, EmitSignal (ROOM_ID c) (socket_id c) u (SigOffer offer)
              ∈ (connect_all c us).2) ∨
  (∃ pc, peerConnections (connect_all c us).1 !! u = Some pc ∧ ¬ offers pc).
Proof.
  revert c. induction us as [| v us IH]; intros c Hst Hin Hne.
  - by apply elem_of_nil in Hin.
  - simpl. destruct (createPeerConnection_frame c v) as (Hid1 & Hroom1 & Hst1).
    destruct (createOffer_frame (createPeerConnection c v) v)
      as (Hid2 & Hroom2 & Hst2).
    destruct (decide (u ∈ us)) as [Hlater | Hlast].
    + destruct (IH (createOffer (createPeerConnection c v) v).1)
        as [[offer Hout] | Hrej].
      * by rewrite Hst2, Hst1.
      * done.
      * by rewrite Hid2, Hid1.
      * left. exists offer. apply elem_of_app. right.
        by rewrite Hroom2, Hroom1, Hid2, Hid1 in Hout.
      * by right.
    + apply elem_of_cons in Hin as [-> | Hin]; [| done].
      assert (Hlink : is_Some (peerConnections (createPeerConnection c v) !! v))
        by (apply createPeerConnection_peers; auto).
      destruct Hlink as [pc Hpc].
      destruct (createOffer_sent_or_rejected (createPeerConnection c v) v pc)
        as [[offer Hout] | [Hsame Hrej]].
      * by rewrite Hst1.
      * done.
      * left. exists offer. apply elem_of_app. left.
        rewrite Hout, Hroom1, Hid1. left.
      * right. exists pc. split; [| done].
        rewrite connect_all_other by done. by rewrite Hsame.
Qed.

End session.

(** *** A transport for the examples

    It stores what it is given. As browsers do, it rejects a candidate
    while no remote description is set (the case the candidate branch of
    the signal handler catches) and creates an answer only once a remote
    description is set. It accepts every description in every state, as
    a transport with implicit rollback does; [strict_transport] below
    does not. Descriptions, candidates and streams are strings. *)

Record RefPC := mkRefPC {
  ref_tracks : option string;
  ref_local : option string;
  ref_remote : option string;
  ref_candidates : list string
}.

#[export] Instance ref_transport : PeerTransport RefPC string string string := {|
  pc_new _ := mkRefPC None None None [];
  pc_addTracks st pc :=
    mkRefPC (Some st) (ref_local pc) (ref_remote pc) (ref_candidates pc);
  pc_createOffer pc := Some "offer-sdp";
  pc_createAnswer pc :=
    match ref_remote pc with
    | Some _ => Some "answer-sdp"
    | None => None
    end;
  pc_setLocalDescription d pc :=
    Some (mkRefPC (ref_tracks pc) (Some d) (ref_remote pc) (ref_candidates pc));
  pc_setRemoteDescription d pc :=
    Some (mkRefPC (ref_tracks pc) (ref_local pc) (Some d) (ref_candidates pc));
  pc_addIceCandidate cand pc :=
    match ref_remote pc with
    | Some _ =>
        Some (mkRefPC (ref_tracks pc) (ref_local pc) (ref_remote pc)
                (ref_candidates pc ++ [cand]))
    | None => None
    end
|}.

Lemma ref_transport_responsive : responsive (PC := RefPC).
Proof. intros pc. eexists _, _. split; reflexivity. Qed.

(** Client [A] with its camera on, in no room yet. *)
Definition camera_on : @State RefPC string :=
  set_localStream "cam" (init "A").

(** Client [A] in room [r1] after the snapshot [room-state{users: [B]}],
    camera still off. *)
Definition in_r1_with_B : @State RefPC string :=
  {| socket_id := "A"; ROOM_ID := Some "r1"; isInRoom := true;
     localStream := None; peerConnections := ∅;
     currentRoomUsers := ["B"; "A"]; transports := 0 |}.

(** Client [A] in room [r1] with a link to [B] on which it has sent its
    own offer and has no answer yet. *)
Definition offering_to_B : @State RefPC string :=
  (on_user_joined
     {| socket_id := "A"; ROOM_ID := Some "r1"; isInRoom := true;
        localStream := Some "cam"; peerConnections := ∅;
        currentRoomUsers := ["A"]; transports := 0 |} "B").1.

Example offering_to_B_link :
  peerConnections offering_to_B !! "B"
  = Some (mkRefPC (Some "cam") (Some "offer-sdp") None []).
Proof. vm_compute. reflexivity. Qed.

(** C1, at a concrete input: a candidate from [B] arrives before any
    description of [B]. The transport rejects it and the handler keeps
    it nowhere; after [B]'s offer is applied and answered, the link has
    no candidate, where the claim asks for the buffered one. The same
    candidate arriving after the offer is applied. *)
Theorem early_candidate_is_dropped :
  let r1 := on_webrtc_signal camera_on "B" (SigCandidate "cand-1") in
  let r2 := on_webrtc_signal r1.1 "B" (SigOffer "offer-B") in
  let r3 := on_webrtc_signal
              (on_webrtc_signal camera_on "B" (SigOffer "offer-B")).1
              "B" (SigCandidate "cand-1") in
  r1 = (createPeerConnection camera_on "B", []) ∧
  peerConnections r2.1 !! "B"
    = Some (mkRefPC (Some "cam") (Some "answer-sdp") (Some "offer-B") []) ∧
  r2.2 = [EmitSignal None "A" "B" (SigAnswer "answer-sdp")] ∧
  peerConnections r3.1 !! "B"
    = Some (mkRefPC (Some "cam") (Some "answer-sdp") (Some "offer-B") ["cand-1"]).
Proof. vm_compute. split_and!; reflexivity. Qed.

(** *** A transport without implicit rollback

    It follows the signaling states of the offer/answer exchange: a
    remote offer is accepted in the stable state (or over an earlier
    remote offer) and rejected while the connection's own offer is
    pending; a remote answer is accepted only then; an answer can be
    created and set only over a remote offer. A description carries its
    kind. *)

Inductive SdpKind := Offer | Answer.

Inductive Signaling := Stable | HaveLocalOffer | HaveRemoteOffer.

Record StrictPC := mkStrictPC {
  sp_signaling : Signaling;
  sp_local : option (SdpKind * string);
  sp_remote : option (SdpKind * string);
  sp_candidates : list string
}.

#[export] Instance strict_transport
    : PeerTransport StrictPC (SdpKind * string) string string := {|
  pc_new _ := mkStrictPC Stable None None [];
  pc_addTracks _ pc := pc;
  pc_createOffer pc := Some (Offer, "offer-sdp");
  pc_createAnswer pc :=
    match sp_signaling pc with
    | HaveRemoteOffer => Some (Answer, "answer-sdp")
    | _ => None
    end;
  pc_setLocalDescription d pc :=
    match d.1, sp_signaling pc with
    | Offer, (Stable | HaveLocalOffer) =>
        Some (mkStrictPC HaveLocalOffer (Some d) (sp_remote pc) (sp_candidates pc))
    | Answer, HaveRemoteOffer =>
        Some (mkStrictPC Stable (Some d) (sp_remote pc) (sp_candidates pc))
    | _, _ => None
    end;
  pc_setRemoteDescription d pc :=
    match d.1, sp_signaling pc with
    | Offer, (Stable | HaveRemoteOffer) =>
        Some (mkStrictPC HaveRemoteOffer (sp_local pc) (Some d) (sp_candidates pc))
    | Answer, HaveLocalOffer =>
        Some (mkStrictPC Stable (sp_local pc) (Some d) (sp_candidates pc))
    | _, _ => None
    end;
  pc_addIceCandidate cand pc :=
    match sp_remote pc with
    | Some _ =>
        Some (mkStrictPC (sp_signaling pc) (sp_local pc) (sp_remote pc)
                (sp_candidates pc ++ [cand]))
    | None => None
    end
|}.

(** Client [A] in room [r1], camera on, having sent its own offer to [B]
    when [B] joined: the link to [B] waits for [B]'s answer. *)
Definition strict_offering_to_B : @State StrictPC string :=
  (on_user_joined
     {| socket_id := "A"; ROOM_ID := Some "r1"; isInRoom := true;
        localStream := Some "cam"; peerConnections := ∅;
        currentRoomUsers := ["A"]; transports := 0 |} "B").1.

(** Client [A] in room [r1], camera on, with a link to [B] on which
    nothing has been negotiated yet. *)
Definition strict_idle_link_to_B : @State StrictPC string :=
  {| socket_id := "A"; ROOM_ID := Some "r1"; isInRoom := true;
     localStream := Some "cam";
     peerConnections := {[ "B" := mkStrictPC Stable None None [] ]};
     currentRoomUsers := ["A"; "B"]; transports := 1 |}.

(** C7 as stated fails here: [A] is waiting for [B]'s answer when [B]'s
    offer arrives. The transport rejects the offer, so it is not applied
    as remote description, no answer is made and nothing is sent; the
    link is as it was. *)
Lemma offer_while_offering_is_not_answered :
  peerConnections strict_offering_to_B !! "B"
    = Some (mkStrictPC HaveLocalOffer (Some (Offer, "offer-sdp")) None []) ∧
  on_webrtc_signal strict_offering_to_B "B" (SigOffer (Offer, "offer-B"))
    = (strict_offering_to_B, []).
Proof. split; vm_compute; reflexivity. Qed.

Lemma offer_answered_when_accepted_witness :
  (peerConnections
     (on_webrtc_signal strict_idle_link_to_B "B" (SigOffer (Offer, "offer-B"))).1
   !! "B"
   = Some (mkStrictPC Stable (Some (Answer, "answer-sdp"))
             (Some (Offer, "offer-B")) []) ∧
   (on_webrtc_signal strict_idle_link_to_B "B" (SigOffer (Offer, "offer-B"))).2
   = [EmitSignal (Some "r1") "A" "B" (SigAnswer (Answer, "answer-sdp"))]) ∧
  on_webrtc_signal strict_offering_to_B "B" (SigOffer (Offer, "offer-B"))
    = (strict_offering_to_B, []).
Proof.
  split.
  - apply (proj1 (offer_answered_when_accepted strict_idle_link_to_B "B"
                    (mkStrictPC Stable None None []) (Offer, "offer-B")
                    eq_refl)
             (mkStrictPC HaveRemoteOffer None (Some (Offer, "offer-B")) [])
             (Answer, "answer-sdp")
             (mkStrictPC Stable (Some (Answer, "answer-sdp"))
                (Some (Offer, "offer-B")) []));
      reflexivity.
  - apply (proj1 (proj2 (offer_answered_when_accepted strict_offering_to_B "B"
                    (mkStrictPC HaveLocalOffer (Some (Offer, "offer-sdp")) None [])
                    (Offer, "offer-B") ltac:(vm_compute; reflexivity)))).
    reflexivity.
Defined.

(** C8, at a concrete input: [A] is in room [r1] with [B], who joined
    first, and turns the camera on. In a browser without
    [navigator.mediaDevices.getUserMedia] the stream is stored but no link
    to [B] is made and nothing is sent; with it, [A] gets a link to [B]
    and sends [B] an offer. *)
Theorem legacy_media_calls_nobody :
  startLocalStream in_r1_with_B (LegacyGranted "cam")
    = (set_localStream "cam" in_r1_with_B, []) ∧
  peerConnections (startLocalStream in_r1_with_B (LegacyGranted "cam")).1 !! "B"
    = None ∧
  peerConnections (startLocalStream in_r1_with_B (ModernGranted "cam")).1 !! "B"
    = Some (mkRefPC (Some "cam") (Some "offer-sdp") None []) ∧
  (startLocalStream in_r1_with_B (ModernGranted "cam")).2
    = [EmitSignal (Some "r1") "A" "B" (SigOffer "offer-sdp")].
Proof. vm_compute. split_and!; reflexivity. Qed.

Lemma createPeerConnection_idempotent_no_self_witness :
  createPeerConnection offering_to_B "B" = offering_to_B ∧
  createPeerConnection offering_to_B "A" = offering_to_B ∧
  peerConnections (createPeerConnection offering_to_B "C") !! "A" = None ∧
  peerConnections
    (step id (init (PC := RefPC) (Stream := string) "A")
       (EWebrtcSignal "A" (SigOffer "offer-A"))).1 !! "A" = None.
Proof.
  split_and!.
  - apply (proj1 (createPeerConnection_idempotent_no_self offering_to_B "B")).
    left. vm_compute. eauto.
  - apply (proj1 (createPeerConnection_idempotent_no_self offering_to_B "A")).
    right. reflexivity.
  - apply (proj1 (proj2 (createPeerConnection_idempotent_no_self offering_to_B "C"))).
    vm_compute. reflexivity.
  - apply (proj2 (proj2 (createPeerConnection_idempotent_no_self
                           (step id (init "A")
                              (EWebrtcSignal "A" (SigOffer "offer-A"))).1 "A")) id).
    apply reachable_step, reachable_init.
Defined.

(** *** Witnesses on the example transport *)

(** Client [A] alone in room [r1], camera off. *)
Definition alone_in_r1 : @State RefPC string :=
  {| socket_id := "A"; ROOM_ID := Some "r1"; isInRoom := true;
     localStream := None; peerConnections := ∅;
     currentRoomUsers := ["A"]; transports := 0 |}.

Lemma room_state_calls_everyone_witness :
  (on_room_state alone_in_r1 ["B"; "C"]).2 = [] ∧
  is_Some (peerConnections
             (on_room_state (set_localStream "cam" alone_in_r1) ["B"; "C"]).1
           !! "C").
Proof.
  split.
  - apply (proj1 (room_state_calls_everyone alone_in_r1 ["B"; "C"])).
    reflexivity.
  - apply (proj2 (room_state_calls_everyone (set_localStream "cam" alone_in_r1)
                    ["B"; "C"]) ref_transport_responsive).
    + simpl. eauto.
    + right. left.
    + done.
Defined.

Lemma user_joined_offer_now_or_deferred_witness :
  (on_user_joined alone_in_r1 "B").2 = [] ∧
  is_Some (peerConnections
             (startLocalStream (on_user_joined alone_in_r1 "B").1
                (ModernGranted "cam")).1 !! "B").
Proof.
  pose proof (proj2 (user_joined_offer_now_or_deferred alone_in_r1 "B" "cam"
                       ref_transport_responsive ltac:(done))
                eq_refl eq_refl ltac:(left)) as (H1 & _ & _ & H2 & _).
  exact (conj H1 H2).
Defined.

Lemma signal_without_link_is_ignored_witness :
  on_webrtc_signal in_r1_with_B "B" (SigOffer "offer-B") = (in_r1_with_B, []).
Proof.
  apply signal_without_link_is_ignored.
  - vm_compute. reflexivity.
  - left. reflexivity.
Defined.

Lemma signal_revives_link_witness :
  is_Some (peerConnections
             (on_webrtc_signal
                (on_user_left (Desc := string) (Cand := string)
                   offering_to_B "B").1 "B"
                (SigCandidate "cand-1")).1 !! "B").
Proof.
  apply (signal_revives_link offering_to_B "B" (SigCandidate "cand-1")).
  - vm_compute. eauto.
  - done.
Defined.



(** A transport whose first connection cannot produce an offer; every
    later one can. *)
Record FlakyPC := mkFlakyPC {
  fl_index : nat;
  fl_local : option string
}.

#[export] Instance flaky_transport : PeerTransport FlakyPC string string string := {|
  pc_new n := mkFlakyPC n None;
  pc_addTracks _ pc := pc;
  pc_createOffer pc :=
    match fl_index pc with
    | 0 => None
    | S _ => Some "offer-sdp"
    end;
  pc_createAnswer pc := Some "answer-sdp";
  pc_setLocalDescription d pc := Some (mkFlakyPC (fl_index pc) (Some d));
  pc_setRemoteDescription d pc := Some pc;
  pc_addIceCandidate cand pc := Some pc
|}.

(** Client [A] in room [r1] with [B] and [C], camera on, no link yet. *)
Definition flaky_in_r1 : @State FlakyPC string :=
  {| socket_id := "A"; ROOM_ID := Some "r1"; isInRoom := true;
     localStream := Some "cam"; peerConnections := ∅;
     currentRoomUsers := ["B"; "C"; "A"]; transports := 0 |}.

(** The link to [B] is the first connection and rejects [createOffer];
    [C] is still sent its offer. *)
Lemma connect_all_failure_is_contained_witness :
  (connect_all flaky_in_r1 ["B"; "C"]).2
    = [EmitSignal (Some "r1") "A" "C" (SigOffer "offer-sdp")] ∧
  peerConnections (connect_all flaky_in_r1 ["B"; "C"]).1 !! "B"
    = Some (mkFlakyPC 0 None) ∧
  ((∃ offer, EmitSignal (Some "r1") "A" "C" (SigOffer offer)
               ∈ (connect_all flaky_in_r1 ["B"; "C"]).2) ∨
   (∃ pc, peerConnections (connect_all flaky_in_r1 ["B"; "C"]).1 !! "C" = Some pc ∧
          ¬ offers pc)).
Proof.
  split_and!.
  - vm_compute. reflexivity.
  - vm_compute. reflexivity.
  - apply (connect_all_failure_is_contained flaky_in_r1 ["B"; "C"] "C").
    + simpl. eauto.
    + right. left.
    + done.
Defined.

End Client.

(** ** Location markers of the client ([src/client/main.js])

    The marker bookkeeping behind the map: [addOrUpdateUserMarker],
    [removeUserMarker], the [locations] loop of the [room-state] handler,
    and the [location-update] the geolocation callback sends. A marker is
    the data the client gives to [google.maps.Marker]; the drawing is not
    modelled. *)

Module MapView.
Section markers.
Context {Coord : Type}.

(** What the client sets on a [google.maps.Marker]. *)
Record Marker := mkMarker {
  position : Coord * Coord;
  title : string;
  icon : string
}.

(** [map] (true once [initMap] has created the map) and [userMarkers]. *)
Record View := mkView {
  map : bool;
  userMarkers : gmap string Marker
}.

Definition blue_dot : string :=
  "http://maps.google.com/mapfiles/ms/icons/blue-dot.png".
Definition red_dot : string :=
  "http://maps.google.com/mapfiles/ms/icons/red-dot.png".

(** [function addOrUpdateUserMarker(userId, lat, lng, isSelf = false)].
    [userId.substring(0, 8)] is taken on the characters of the id, which
    for the ids Socket.IO hands out are ASCII. *)
Definition addOrUpdateUserMarker (w : View) (userId : string)
    (la ln : Coord) (isSelf : bool) : View :=
  if map w then
    match userMarkers w !! userId with
    | Some marker =>
        {| map := map w;
           userMarkers :=
             <[userId := {| position := (la, ln); title := title marker;
                            icon := icon marker |}]> (userMarkers w) |}
    | None =>
        {| map := map w;
           userMarkers :=
             <[userId :=
                 {| position := (la, ln);
                    title := if isSelf then "You"
                             else "User " +:+ String.substring 0 8 userId;
                    icon := if isSelf then blue_dot else red_dot |}]>
               (userMarkers w) |}
    end
  else w.

(** [function removeUserMarker(userId)]. *)
Definition removeUserMarker (w : View) (userId : string) : View :=
  match userMarkers w !! userId with
  | Some _ => {| map := map w; userMarkers := delete userId (userMarkers w) |}
  | None => w
  end.

(** [locations.forEach(({ userId, lat, lng }) =>
    addOrUpdateUserMarker(userId, lat, lng))] of the [room-state]
    handler; a run of [location-update] events does the same, one entry
    at a time. *)
Definition show_locations (w : View) (locs : list (string * Coord * Coord))
    : View :=
  foldl (λ w e, addOrUpdateUserMarker w e.1.1 e.1.2 e.2 false) w locs.

(** The [location-update] the geolocation callback sends on a connected
    socket: [if (... && isInRoom && ROOM_ID) socket.emit('location-update',
    { roomId: ROOM_ID, lat, lng })]. *)
Definition position_update {PC Stream : Type} (c : @Client.State PC Stream)
    (la ln : Coord) : option (@Server.LocationData Coord) :=
  if Client.isInRoom c && JS.truthy (Client.ROOM_ID c)
  then Some (Server.mkLocationData (default "" (Client.ROOM_ID c)) la ln)
  else None.

Lemma addOrUpdateUserMarker_map w u la ln isSelf :
  map (addOrUpdateUserMarker w u la ln isSelf) = map w.
Proof. unfold addOrUpdateUserMarker. repeat case_match; done. Qed.

Lemma addOrUpdateUserMarker_other w u v la ln isSelf :
  v ≠ u →
  userMarkers (addOrUpdateUserMarker w u la ln isSelf) !! v = userMarkers w !! v.
Proof.
  intros Hne. unfold addOrUpdateUserMarker. repeat case_match; try done;
    simpl; by rewrite lookup_insert_ne.
Qed.

Lemma addOrUpdateUserMarker_same w u la ln isSelf :
  map w = true →
  ∃ marker,
    userMarkers (addOrUpdateUserMarker w u la ln isSelf) !! u = Some marker ∧
    position marker = (la, ln) ∧
    match userMarkers w !! u with
    | Some old => title marker = title old ∧ icon marker = icon old
    | None =>
        title marker = (if isSelf then "You"
                        else "User " +:+ String.substring 0 8 u) ∧
        icon marker = (if isSelf then blue_dot else red_dot)
    end.
Proof.
  intros Hmap. unfold addOrUpdateUserMarker. rewrite Hmap.
  destruct (userMarkers w !! u) as [old |]; simpl;
    rewrite lookup_insert_eq; eauto.
Qed.

Lemma show_locations_map w locs : map (show_locations w locs) = map w.
Proof.
  unfold show_locations. induction locs as [| e locs IH] using rev_ind; [done |].
  by rewrite foldl_app; simpl; rewrite addOrUpdateUserMarker_map.
Qed.

Lemma show_locations_snoc w locs e :
  show_locations w (locs ++ [e])
  = addOrUpdateUserMarker (show_locations w locs) e.1.1 e.1.2 e.2 false.
Proof. unfold show_locations. by rewrite foldl_app. Qed.

Lemma show_locations_label w locs u marker :
  userMarkers w !! u = None →
  userMarkers (show_locations w locs) !! u = Some marker →
  title marker = "User " +:+ String.substring 0 8 u ∧ icon marker = red_dot.
Proof.
  intros Hfresh. revert marker.
  induction locs as [| e locs IH] using rev_ind; intros marker.
  - unfold show_locations. simpl. by rewrite Hfresh.
  - rewrite show_locations_snoc. destruct (decide (u = e.1.1)) as [-> | Hne].
    + unfold addOrUpdateUserMarker.
      destruct (map (show_locations w locs)); [| apply IH].
      destruct (userMarkers (show_locations w locs) !! e.1.1) as [old |] eqn:Hold;
        simpl; rewrite lookup_insert_eq; intros [= <-]; simpl; [| done].
      by apply IH.
    + rewrite addOrUpdateUserMarker_other by done. apply IH.
Qed.

(** X20: markers follow the locations received. While the map does not
    exist yet, received locations are dropped. Once it exists, after a
    list of locations has been shown the marker of a user stands at the
    last location received for that user, and a marker created on the way
    is labelled with the first eight characters of the user's id. *)
Theorem markers_show_latest_location (w : View)
    (locs : list (string * Coord * Coord)) (u : string) (la ln : Coord) :
  (map w = false → show_locations w locs = w) ∧
  (map w = true → last (filter (λ e, e.1.1 = u) locs) = Some (u, la, ln) →
   ∃ marker,
     userMarkers (show_locations w locs) !! u = Some marker ∧
     position marker = (la, ln) ∧
     (userMarkers w !! u = None →
      title marker = "User " +:+ String.substring 0 8 u ∧ icon marker = red_dot)).
Proof.
  split.
  - intros Hmap. unfold show_locations.
    induction locs as [| e locs IH] using rev_ind; [done |].
    rewrite foldl_app, IH. simpl. unfold addOrUpdateUserMarker. by rewrite Hmap.
  - intros Hmap.
    assert (Hpos : last (filter (λ e, e.1.1 = u) locs) = Some (u, la, ln) →
              ∃ marker, userMarkers (show_locations w locs) !! u = Some marker ∧
                        position marker = (la, ln)).
    { induction locs as [| e locs IH] using rev_ind; [done |].
      rewrite filter_app, show_locations_snoc, filter_cons, filter_nil.
      case_decide as Hu.
      - rewrite last_snoc. intros [= ->]. simpl.
        destruct (addOrUpdateUserMarker_same (show_locations w locs) u la ln false)
          as (marker & Hm & Hp & _); [by rewrite show_locations_map |].
        eauto.
      - rewrite app_nil_r. intros Hlast.
        rewrite addOrUpdateUserMarker_other by done. by apply IH. }
    intros Hlast. destruct (Hpos Hlast) as (marker & Hm & Hp).
    exists marker. split_and!; [done | done |].
    intros Hfresh. by eapply show_locations_label.
Qed.

(** X21: [removeUserMarker] leaves no marker for the user and touches no
    other marker; for a user without a marker it changes nothing, so
    running it twice is the same as once. A location received after the
    removal creates a new marker. *)
Theorem removeUserMarker_forgets (w : View) (u : string) :
  userMarkers (removeUserMarker w u) !! u = None ∧
  (∀ v, v ≠ u → userMarkers (removeUserMarker w u) !! v = userMarkers w !! v) ∧
  (userMarkers w !! u = None → removeUserMarker w u = w) ∧
  removeUserMarker (removeUserMarker w u) u = removeUserMarker w u ∧
  (map w = true → ∀ la ln,
     position <$> userMarkers
       (addOrUpdateUserMarker (removeUserMarker w u) u la ln false) !! u
     = Some (la, ln)).
Proof.
  assert (Hgone : userMarkers (removeUserMarker w u) !! u = None).
  { unfold removeUserMarker. destruct (userMarkers w !! u) eqn:Hu; [| done].
    simpl. apply lookup_delete_eq. }
  split_and!.
  - done.
  - intros v Hne. unfold removeUserMarker. destruct (userMarkers w !! u); [| done].
    simpl. by rewrite lookup_delete_ne.
  - intros Hnone. unfold removeUserMarker. by rewrite Hnone.
  - unfold removeUserMarker at 1. by rewrite Hgone.
  - intros Hmap la ln.
    destruct (addOrUpdateUserMarker_same (removeUserMarker w u) u la ln false)
      as (marker & -> & <- & _); [| done].
    unfold removeUserMarker. by destruct (userMarkers w !! u).
Qed.

(** X22: the client stamps its location updates with the room name it
    sent in [join-room], so the server's check of the caller's room lets
    them through: when the server has processed the [join-room] that
    [joinRoom] emitted, the update the geolocation callback sends next is
    stored as the caller's location in that room. *)
Theorem location_after_join_is_stored {PC Desc Cand Stream Payload : Type}
    (trim : string → string) (c : @Client.State PC Stream)
    (s : @Server.State Coord) (roomName r : string) (la ln : Coord) :
  (Client.joinRoom (Desc := Desc) (Cand := Cand) trim c roomName).2
    = [Client.EmitJoinRoom r] →
  ∃ data,
    position_update
      (Client.joinRoom (Desc := Desc) (Cand := Cand) trim c roomName).1 la ln
      = Some data ∧
    Server.location_of
      (Server.rooms
         (Server.location_update (Payload := Payload)
            (Server.join_room (Payload := Payload) s (Client.socket_id c) r).1
            (Client.socket_id c) data).1)
      r (Client.socket_id c)
    = Some (Server.mkLatLng la ln).
Proof.
  unfold Client.joinRoom. case_decide as Hblank; [done |]. intros [= <-].
  assert (Htrim : trim roomName ≠ "") by tauto.
  exists (Server.mkLocationData (trim roomName) la ln). split.
  - unfold position_update. simpl. by rewrite bool_decide_eq_true_2.
  - set (sid := Client.socket_id c).
    set (s1 := (Server.join_room s sid (trim roomName)).1).
    assert (Hroom : Server.socket_roomId s1 sid = Some (trim roomName)).
    { unfold Server.socket_roomId, s1. simpl. by rewrite lookup_insert_eq. }
    destruct (Server.join_room_out (Payload := Payload) s sid (trim roomName))
      as (room' & Hroom' & _).
    fold s1 in Hroom'. unfold Server.location_update.
    cbn [Server.ld_roomId Server.ld_lat Server.ld_lng].
    rewrite decide_True by done. rewrite Hroom'.
    unfold Server.location_of. cbn [fst Server.rooms].
    rewrite lookup_insert_eq. cbn [Server.locations].
    apply JS.Map_get_Map_set_eq.
Qed.

End markers.

Lemma markers_show_latest_location_witness :
  show_locations (mkView false ∅) [("B", 1%Z, 2%Z)] = mkView false ∅ ∧
  ∃ marker,
    userMarkers
      (show_locations (mkView true ∅) [("B", 1%Z, 2%Z); ("C", 5%Z, 6%Z);
                                       ("B", 3%Z, 4%Z)]) !! "B"
      = Some marker ∧
    position marker = (3%Z, 4%Z).
Proof.
  split.
  - apply (proj1 (markers_show_latest_location (mkView false ∅)
                    [("B", 1%Z, 2%Z)] "B" 1%Z 2%Z)).
    reflexivity.
  - destruct (proj2 (markers_show_latest_location (mkView true ∅)
                       [("B", 1%Z, 2%Z); ("C", 5%Z, 6%Z); ("B", 3%Z, 4%Z)]
                       "B" 3%Z 4%Z) eq_refl eq_refl)
      as (marker & Hm & Hp & _).
    exists marker. exact (conj Hm Hp).
Defined.

Lemma removeUserMarker_forgets_witness :
  position <$> userMarkers
    (addOrUpdateUserMarker
       (removeUserMarker (show_locations (mkView true ∅) [("B", 1%Z, 2%Z)]) "B")
       "B" 3%Z 4%Z false) !! "B"
  = Some (3%Z, 4%Z).
Proof.
  apply (removeUserMarker_forgets
           (show_locations (mkView true ∅) [("B", 1%Z, 2%Z)]) "B").
  reflexivity.
Defined.

Lemma location_after_join_is_stored_witness :
  ∃ data,
    position_update
      (Client.joinRoom (Desc := string) (Cand := string) id
         Client.alone_in_r1 "r2").1 1%Z 2%Z
      = Some data ∧
    Server.location_of
      (Server.rooms
         (Server.location_update (Payload := string)
            (Server.join_room (Payload := string) Server.two_in_r1 "A" "r2").1
            "A" data).1)
      "r2" "A"
    = Some (Server.mkLatLng 1%Z 2%Z).
Proof.
  apply (location_after_join_is_stored (Desc := string) (Cand := string)
           (Payload := string) id Client.alone_in_r1 Server.two_in_r1
           "r2" "r2" 1%Z 2%Z).
  reflexivity.
Defined.

End MapView.
